(** * calmux: the calendar grid renderer of [web/main.ts]

    A shallow embedding of the grid-layout engine (event model, grid
    coordinates, day-cell stack, multi-day edge decomposition and the
    sweep-line lane allocator) together with the properties that the
    design document states about it.

    Conventions of the embedding:
    - a JavaScript number holding an integer is a [Z]; [%] is the truncated
      remainder [Z.rem] and [Math.floor (a / b)] is [Z.div];
    - a [Temporal.PlainDate] is its day number counted from 1970-01-01;
      a [Temporal.Instant] is its count of nanoseconds since the epoch;
    - a string is a [string]; every search value given to [replaceAll] and
      [includes] in the program is a one-character string, here an [ascii];
    - an object is identified by its index in the arena that created it; the
      only field written after creation ([place]) lives in a map from object
      identity to value;
    - the HTML text the renderer joins together is kept as a list of
      fragments, each holding the values its template interpolates. *)

From Stdlib Require Import ZArith String Ascii List Lia Permutation Sorted DecimalString.
From stdpp Require Import base list gmap strings sorting.

Local Open Scope Z_scope.

(** ** Strings *)

Module Str.

(** [s.includes(c)] for a one-character search string. *)
Fixpoint includes (c : ascii) (s : string) : bool :=
  match s with
  | EmptyString => false
  | String x s' => if Ascii.eqb x c then true else includes c s'
  end.

(** [s.replaceAll(pat, rep)] for a one-character pattern; no replacement text
    of the program contains a dollar sign, so [rep] is inserted literally. *)
Fixpoint replaceAll (pat : ascii) (rep : string) (s : string) : string :=
  match s with
  | EmptyString => EmptyString
  | String x s' =>
      if Ascii.eqb x pat then String.append rep (replaceAll pat rep s')
      else String x (replaceAll pat rep s')
  end.

Definition amp : ascii := "&"%char.
Definition lt : ascii := "<"%char.
Definition gt : ascii := ">"%char.
Definition dquote : ascii := Ascii.ascii_of_nat 34.
Definition squote : ascii := "'"%char.
Definition newline : string := String (Ascii.ascii_of_nat 10) EmptyString.

End Str.

(** [escapeHtml], main.ts lines 315-322. *)
Definition escapeHtml (s : string) : string :=
  Str.replaceAll Str.squote "&apos;"
    (Str.replaceAll Str.dquote "&quot;"
       (Str.replaceAll Str.gt "&gt;"
          (Str.replaceAll Str.lt "&lt;"
             (Str.replaceAll Str.amp "&amp;" s)))).

(** ** Temporal: the proleptic Gregorian calendar on day numbers *)

Module Temporal.

Definition nsPerHour : Z := 3600 * 1000000000.
Definition nsPerDay : Z := 24 * nsPerHour.

(** [new Temporal.PlainDate(y, m, d)] as a day number. *)
Definition PlainDate (y m d : Z) : Z :=
  let y' := if m <=? 2 then y - 1 else y in
  let era := y' / 400 in
  let yoe := y' - era * 400 in
  let mp := if 2 <? m then m - 3 else m + 9 in
  let doy := (153 * mp + 2) / 5 + d - 1 in
  let doe := yoe * 365 + yoe / 4 - yoe / 100 + doy in
  era * 146097 + doe - 719468.

(** [date.dayOfWeek]: ISO numbering, Monday is 1 and Sunday is 7.
    Day number 0 (1970-01-01) is a Thursday. *)
Definition dayOfWeek (date : Z) : Z := (date + 3) mod 7 + 1.

(** The ISO fields (year, month, day) of a day number. *)
Definition isoFields (date : Z) : Z * Z * Z :=
  let z := date + 719468 in
  let era := z / 146097 in
  let doe := z - era * 146097 in
  let yoe := (doe - doe / 1460 + doe / 36524 - doe / 146096) / 365 in
  let doy := doe - (365 * yoe + yoe / 4 - yoe / 100) in
  let mp := (5 * doy + 2) / 153 in
  let d := doy - (153 * mp + 2) / 5 + 1 in
  let m := if mp <? 10 then mp + 3 else mp - 9 in
  let y := yoe + era * 400 + (if m <=? 2 then 1 else 0) in
  (y, m, d).

(** [date.day] *)
Definition day (date : Z) : Z := snd (isoFields date).

End Temporal.

(** ** The host: what the program takes from the JavaScript runtime

    The comparison of strings by locale, the parsing of ISO strings, the time
    zone of the machine and the locale's date and time texts are not code of
    the program.  [formatMonDate] and [formatBriefTime] trim the output of
    [toLocaleString]; their results are locale text and are kept with the
    host. *)

Class Host := {
  (** [a.localeCompare(b)] *)
  localeCompare : string -> string -> Z;
  (** [Temporal.PlainDate.from(s)], a day number *)
  PlainDate_from : string -> Z;
  (** [Temporal.Instant.from(s)], nanoseconds since the epoch *)
  Instant_from : string -> Z;
  (** the offset of [Temporal.Now.timeZoneId()] at an instant, in nanoseconds *)
  offsetNanosecondsFor : Z -> Z;
  (** [formatMonDate(date)], main.ts lines 298-304 *)
  formatMonDate : Z -> string;
  (** [formatBriefTime(time)] of the local time of day of an instant,
      main.ts lines 306-313 *)
  formatBriefTime : Z -> string;
  (** [zdt.toString({ timeZoneName: "never" })] *)
  ZonedDateTime_toString : Z -> string;
  (** [n.toString()] of a day of the month *)
  Number_toString : Z -> string
}.

(** A [Temporal.ZonedDateTime] in the zone of the host is an instant; the
    zone only matters when a local field is read. *)
Module ZonedDateTime.
Section WithHost.
Context {H : Host}.

(** [zdt.toPlainDate()] *)
Definition toPlainDate (t : Z) : Z := (t + offsetNanosecondsFor t) / Temporal.nsPerDay.

(** the local time of day, in nanoseconds after local midnight *)
Definition timeOfDay (t : Z) : Z := (t + offsetNanosecondsFor t) mod Temporal.nsPerDay.

(** [zdt.add({ hours })]: a duration without date units moves the instant. *)
Definition addHours (t hours : Z) : Z := t + hours * Temporal.nsPerHour.

(** [zdt.subtract({ hours })] *)
Definition subtractHours (t hours : Z) : Z := t - hours * Temporal.nsPerHour.

End WithHost.
End ZonedDateTime.

(** [localDateTime(iso)], main.ts lines 292-296 *)
Definition localDateTime {H : Host} (iso : string) : Z := Instant_from iso.

(** ** Events *)

(** The fields of [EventData] that main.ts reads ([url], [imageUrl] and
    [categories] are never read). *)
Record EventData := {
  title : string;
  startAt : string;
  endAt : string;
  description : option string
}.

(** The two subclasses of the abstract class [Event]. *)
Inductive Event :=
| DateEvent (data : EventData)
| DateTimeEvent (data : EventData).

Definition data (e : Event) : EventData :=
  match e with DateEvent d => d | DateTimeEvent d => d end.

Section Events.
Context {H : Host}.

(** [DateTimeEvent.startAt] and [DateTimeEvent.endAt], lines 386-392 *)
Definition zonedStartAt (d : EventData) : Z := localDateTime (startAt d).
Definition zonedEndAt (d : EventData) : Z := localDateTime (endAt d).

(** [startDate], lines 353-355 and 394-396 *)
Definition startDate (e : Event) : Z :=
  match e with
  | DateEvent d => PlainDate_from (startAt d)
  | DateTimeEvent d => ZonedDateTime.toPlainDate (zonedStartAt d)
  end.

(** [endDate], lines 357-359 and 398-400 *)
Definition endDate (e : Event) : Z :=
  match e with
  | DateEvent d => PlainDate_from (endAt d)
  | DateTimeEvent d => ZonedDateTime.toPlainDate (zonedEndAt d)
  end.

(** [multiLength()], lines 361-363 and 402-407.  [a.until(b).days] and
    [b.since(a).days] are both the difference of the day numbers. *)
Definition multiLength (e : Event) : Z :=
  match e with
  | DateEvent _ => endDate e - startDate e
  | DateTimeEvent d =>
      if startDate e =? endDate e then 0
      else ZonedDateTime.toPlainDate (ZonedDateTime.addHours (zonedEndAt d) 12)
           - startDate e
  end.

(** [Event.compare], lines 334-340 *)
Definition compare (this other : Event) : Z :=
  let rc := localeCompare (startAt (data this)) (startAt (data other)) in
  if negb (rc =? 0) then rc else
  let rc := - localeCompare (endAt (data this)) (endAt (data other)) in
  if negb (rc =? 0) then rc else
  localeCompare (title (data this)) (title (data other)).

(** [briefStartTime], lines 409-411 *)
Definition briefStartTime (d : EventData) : string :=
  formatBriefTime (ZonedDateTime.timeOfDay (zonedStartAt d)).

(** [formatTime()], lines 365-378 and 413-420.  [a.with({ day: b.day })] is
    read on the ISO fields; the two dates it compares agree exactly when they
    lie in the same month of the same year. *)
Definition formatTime (e : Event) : string :=
  match e with
  | DateEvent _ =>
      let inclusiveEnd := endDate e - 1 in
      if startDate e =? inclusiveEnd then formatMonDate (startDate e)
      else if (let '(y1, m1, _) := Temporal.isoFields (startDate e) in
               let '(y2, m2, _) := Temporal.isoFields inclusiveEnd in
               (y1 =? y2) && (m1 =? m2))
      then formatMonDate (startDate e) +:+ "&ndash;"
             +:+ Number_toString (Temporal.day inclusiveEnd)
      else formatMonDate (startDate e) +:+ "&ndash;" +:+ formatMonDate inclusiveEnd
  | DateTimeEvent d =>
      let prettyStartDate := formatMonDate (startDate e) in
      let prettyEndDate := formatMonDate (endDate e) in
      let briefEndTime := formatBriefTime (ZonedDateTime.timeOfDay (zonedEndAt d)) in
      if startDate e =? endDate e
      then prettyStartDate +:+ " " +:+ briefStartTime d +:+ "&ndash;" +:+ briefEndTime
      else prettyStartDate +:+ " " +:+ briefStartTime d +:+ "&ndash;"
             +:+ prettyEndDate +:+ " " +:+ briefEndTime
  end.

(** [renderHeadline()], lines 380-382 and 422-428 (the indentation of the
    template is left out). *)
Definition renderHeadline (e : Event) : string :=
  match e with
  | DateEvent d => escapeHtml (title d)
  | DateTimeEvent d =>
      "<time datetime=" +:+ String Str.dquote (ZonedDateTime_toString (zonedStartAt d))
        +:+ String Str.dquote ">" +:+ briefStartTime d +:+ "</time> "
        +:+ escapeHtml (title d)
  end.

(** [renderTitleAttr()], lines 345-350 *)
Definition renderTitleAttr (e : Event) : string :=
  let title := escapeHtml (title (data e)) +:+ Str.newline +:+ formatTime e in
  match description (data e) with
  | None => title
  | Some desc => title +:+ Str.newline +:+ escapeHtml desc
  end.

(** The rendered end date of the first renderer ([gridEnd], lines 138-145 and
    770-775): the noon rule. *)
Definition gridEnd (d : EventData) : Z :=
  if startDate (DateTimeEvent d) =? endDate (DateTimeEvent d)
  then endDate (DateTimeEvent d)
  else ZonedDateTime.toPlainDate (ZonedDateTime.subtractHours (zonedEndAt d) 12).

End Events.

(** ** Arrays of the host *)

Module Array.

(** [xs.sort(cmp)]: the sort of the host is stable; for a comparator that is
    a consistent ordering the result is the one computed here, by insertion
    from the right.  For another comparator the host only promises some
    permutation, of which this is one. *)
Fixpoint insert {A} (cmp : A -> A -> Z) (x : A) (l : list A) : list A :=
  match l with
  | [] => [x]
  | y :: l' => if cmp x y <=? 0 then x :: y :: l' else y :: insert cmp x l'
  end.

Fixpoint sort {A} (cmp : A -> A -> Z) (l : list A) : list A :=
  match l with
  | [] => []
  | x :: l' => insert cmp x (sort cmp l')
  end.

(** [xs.at(-1)] and [xs.pop()] *)
Definition at_last {A} (l : list A) : option A := last l.
Definition pop {A} (l : list A) : list A := removelast l.

End Array.

(** ** The multi-day edges *)

(** [interface MultiEventEdge], lines 431-437.  [prev] is the identity of the
    edge object it points to; [place] is written by the allocator and lives in
    the map the allocator threads. *)
Module MultiEventEdge.
Record t := mk {
  gridOrd : Z;
  event : Event;
  prev : option nat;
  definite : bool
}.
End MultiEventEdge.

Abbreviation Edge := MultiEventEdge.t.

(** An element of the array of edges: the reference (the index at which
    [decomposeMultiEdges] pushed the object) with the object read through it. *)
Definition withIdentity (arena : list Edge) : list (nat * Edge) :=
  imap (fun i e => (i, e)) arena.

(** ** CalendarRenderer *)

Record CalendarRenderer := {
  calendarStart : Z;
  calendarDays : Z
}.

(** The constructor, lines 443-450 *)
Definition new_CalendarRenderer (year : Z) : CalendarRenderer :=
  let jan1 := Temporal.PlainDate year 1 1 in
  let calendarStart := jan1 - Temporal.dayOfWeek jan1 in
  let dec31 := Temporal.PlainDate year 12 31 in
  let inclusiveEnd := dec31 + (6 - Temporal.dayOfWeek dec31) in
  {| calendarStart := calendarStart;
     calendarDays := (inclusiveEnd - calendarStart) + 1 |}.

(** The last day of the grid. *)
Definition lastGridDay (this : CalendarRenderer) : Z :=
  calendarStart this + calendarDays this - 1.

(** What the lanes and the day cells are rendered to. *)
Inductive CellItem :=
| SpaceDiv (numPlaces : nat)
| EventDiv (e : Event).

Record DayDiv := {
  day_classes : list string;
  day_row : Z;
  day_col : Z;
  day_datetime : Z;
  day_text : string;
  day_content : list CellItem
}.

Record MultiDiv := {
  multi_classes : list string;
  multi_row : Z;
  multi_left : Z;
  multi_right : Z;
  multi_place : option nat;
  multi_event : Event
}.

Inductive Html :=
| HtmlDay (d : DayDiv)
| HtmlMulti (m : MultiDiv)
| HtmlEmpty.

(** The state the sweep of [placeMultiEdges] carries: the [place] fields
    written so far, the sparse array [places] ([false] is a hole) and the
    sparse array [allocatedSpace]. *)
Record Sweep := {
  placeOf : gmap nat nat;
  places : list bool;
  allocatedSpace : gmap Z nat
}.

Section Renderer.
Context {H : Host}.
Variable this : CalendarRenderer.

(** [gridOrd], lines 452-454 *)
Definition gridOrd (date : Z) : Z := date - calendarStart this.

(** [gridRow], lines 456-458 *)
Definition gridRow (ord : Z) : Z := ord / 7 + 2.

(** [gridCol], lines 460-462 *)
Definition gridCol (ord : Z) : Z := Z.rem ord 7 + 1.

(** The [while] loop of [renderDay], lines 478-485: pop while the top of the
    stack starts on [date].  The stack is the array, its top the last
    element; every turn pops, so its length bounds the turns. *)
Fixpoint popStarting (fuel : nat) (date : Z) (stack : list Event)
    (content : list CellItem) : list CellItem * list Event :=
  match fuel with
  | O => (content, stack)
  | S fuel' =>
      match Array.at_last stack with
      | Some event =>
          if startDate event =? date
          then popStarting fuel' date (Array.pop stack) (content ++ [EventDiv event])
          else (content, stack)
      | None => (content, stack)
      end
  end.

(** [renderDay], lines 464-497 *)
Definition renderDay (ord : Z) (stack : list Event) (ensureMonth : bool)
    (space : nat) : DayDiv * list Event :=
  let date := calendarStart this + ord in
  let ensureMonth := ensureMonth || (Temporal.day date =? 1) in
  let text := if ensureMonth then formatMonDate date
              else Number_toString (Temporal.day date) in
  let content := if (0 <? space)%nat then [SpaceDiv space] else [] in
  let '(content, stack) := popStarting (length stack) date stack content in
  let row := gridRow ord in
  let col := gridCol ord in
  let classes := if Temporal.day date <=? 7 then ["day"; "first-week"]
                 else ["day"] in
  ({| day_classes := classes; day_row := row; day_col := col;
      day_datetime := date; day_text := text; day_content := content |},
   stack).

(** The [for] loop over week boundaries of [decomposeMultiEdges],
    lines 510-514.  It returns the last [prev] and the grown array. *)
Fixpoint weekBoundaries (fuel : nat) (gridOrd end_ : Z) (event : Event)
    (prev : nat) (edges : list Edge) : nat * list Edge :=
  match fuel with
  | O => (prev, edges)
  | S fuel' =>
      if gridOrd <? end_ then
        let edges := edges ++ [MultiEventEdge.mk gridOrd event (Some prev) false] in
        let prev := length edges in
        let edges := edges ++ [MultiEventEdge.mk gridOrd event None false] in
        weekBoundaries fuel' (gridOrd + 7) end_ event prev edges
      else (prev, edges)
  end.

(** One turn of the outer loop of [decomposeMultiEdges], lines 502-517. *)
Definition decomposeEvent (edges : list Edge) (event : Event) : list Edge :=
  let start := gridOrd (startDate event) in
  let prev := length edges in
  let edges := edges ++ [MultiEventEdge.mk start event None true] in
  let followingSunday := start - Z.rem start 7 + 7 in
  let end_ := start + multiLength event in
  let '(prev, edges) :=
    weekBoundaries (Z.to_nat (end_ - followingSunday)) followingSunday end_
      event prev edges in
  edges ++ [MultiEventEdge.mk end_ event (Some prev) true].

(** [decomposeMultiEdges], lines 499-520 *)
Definition decomposeMultiEdges (events : list Event) : list Edge :=
  fold_left decomposeEvent events [].

(** [compareMultiEdge], lines 522-531.  [a.prev != b.prev] compares two
    references (or null). *)
Definition compareMultiEdge (a b : Edge) : Z :=
  if negb (MultiEventEdge.gridOrd a =? MultiEventEdge.gridOrd b)
  then (if MultiEventEdge.gridOrd a <? MultiEventEdge.gridOrd b then -1 else 1)
  else if negb (bool_decide (MultiEventEdge.prev a = MultiEventEdge.prev b))
  then (if bool_decide (MultiEventEdge.prev a <> None) then -1 else 1)
  else if negb (Bool.eqb (MultiEventEdge.definite a) (MultiEventEdge.definite b))
  then (if negb (MultiEventEdge.definite a) then -1 else 1)
  else compare (MultiEventEdge.event a) (MultiEventEdge.event b).

(** The comparator on the elements of the array of edges. *)
Definition compareRef (a b : nat * Edge) : Z := compareMultiEdge (snd a) (snd b).

(** The first [while] of [placeMultiEdges], line 540: the first index that is
    a hole, or the length. *)
Fixpoint firstFree (places : list bool) : nat :=
  match places with
  | [] => O
  | b :: rest => if b then S (firstFree rest) else O
  end.

(** [places[place] = true]: an assignment at or past the length extends the
    array, leaving holes between. *)
Definition occupy (places : list bool) (place : nat) : list bool :=
  if (place <? length places)%nat then <[place := true]> places
  else places ++ replicate (place - length places) false ++ [true].

(** [delete places[i]]: the element becomes a hole, the length stays. *)
Definition vacate (places : list bool) (i : nat) : list bool :=
  <[i := false]> places.

(** The second [while], line 547: pop the holes at the end. *)
Fixpoint popHoles (places : list bool) : list bool :=
  match places with
  | [] => []
  | b :: rest =>
      match popHoles rest with
      | [] => if b then [b] else []
      | rest' => b :: rest'
      end
  end.

(** One turn of the loop of [placeMultiEdges], lines 537-549. *)
Definition placeEdge (st : Sweep) (edge : nat * Edge) : Sweep :=
  let gridOrd := MultiEventEdge.gridOrd (snd edge) in
  match MultiEventEdge.prev (snd edge) with
  | None =>
      let place := firstFree (places st) in
      let places := occupy (places st) place in
      {| placeOf := <[fst edge := place]> (placeOf st);
         places := places;
         allocatedSpace := <[gridOrd := length places]> (allocatedSpace st) |}
  | Some prev =>
      match placeOf st !! prev with
      | Some place =>
          let places := popHoles (vacate (places st) place) in
          {| placeOf := placeOf st;
             places := places;
             allocatedSpace := <[gridOrd := length places]> (allocatedSpace st) |}
      | None => st
      end
  end.

Definition emptySweep : Sweep :=
  {| placeOf := ∅; places := []; allocatedSpace := ∅ |}.

(** [placeMultiEdges], lines 533-552; the sweep from a given state is
    [sweepFrom]. *)
Definition sweepFrom (st : Sweep) (edges : list (nat * Edge)) : Sweep :=
  fold_left placeEdge edges st.

Definition placeMultiEdges (edges : list (nat * Edge)) : Sweep :=
  sweepFrom emptySweep edges.

(** [renderMultiEdge], lines 554-576.  The fields of [prev] are read through
    the reference, in the arena and in the [place] map. *)
Definition renderMultiEdge (arena : list Edge) (placed : gmap nat nat)
    (edge : Edge) : Html :=
  match MultiEventEdge.prev edge with
  | None => HtmlEmpty
  | Some p =>
      match arena !! p with
      | None => HtmlEmpty
      | Some prev =>
          let row := gridRow (MultiEventEdge.gridOrd prev) in
          let left := gridCol (MultiEventEdge.gridOrd prev) in
          let inclusiveEnd := MultiEventEdge.gridOrd edge - 1 in
          let right := gridCol inclusiveEnd + 1 in
          let classes :=
            (["event"; "multi"]
               ++ (if negb (MultiEventEdge.definite prev) then ["indefinite-start"] else [])
               ++ (if negb (MultiEventEdge.definite edge) then ["indefinite-end"] else [])) in
          HtmlMulti {| multi_classes := classes; multi_row := row;
                       multi_left := left; multi_right := right;
                       multi_place := placed !! p;
                       multi_event := MultiEventEdge.event edge |}
      end
  end.

(** The first loop of [renderVariables], lines 581-593: an event with a time
    on one end only is an error; a timed event goes to [multi] when its
    [multiLength()] is positive, a date event always. *)
Fixpoint classify (events : list EventData) (normal multi : list Event)
    : string + (list Event * list Event) :=
  match events with
  | [] => inr (normal, multi)
  | eventData :: rest =>
      let hasTime := Str.includes "T" (startAt eventData) in
      if negb (Bool.eqb (Str.includes "T" (endAt eventData)) hasTime)
      then inl "Date/DateTime mismatch"%string
      else if hasTime then
        let event := DateTimeEvent eventData in
        if 0 <? multiLength event
        then classify rest normal (multi ++ [event])
        else classify rest (normal ++ [event]) multi
      else classify rest normal (multi ++ [DateEvent eventData])
  end.

(** The loop over the grid days, lines 604-608. *)
Fixpoint renderDays (n : nat) (i : Z) (allocated : gmap Z nat) (space : nat)
    (stack : list Event) (content : list Html) : list Html * list Event :=
  match n with
  | O => (content, stack)
  | S n' =>
      let space := match allocated !! i with Some s => s | None => space end in
      let '(cell, stack) := renderDay i stack (i =? 0) space in
      renderDays n' (i + 1) allocated space stack (content ++ [HtmlDay cell])
  end.

(** The renderer up to the end of the grid loop, with the stack it leaves. *)
Definition renderGrid (normal multi : list Event)
    : list (nat * Edge) * Sweep * (list Html * list Event) :=
  let arena := decomposeMultiEdges multi in
  let edges := Array.sort compareRef (withIdentity arena) in
  let st := placeMultiEdges edges in
  let normal := Array.sort (fun a b => compare b a) normal in
  (edges, st,
   renderDays (Z.to_nat (calendarDays this)) 0 (allocatedSpace st) O normal []).

(** [renderVariables], lines 578-619: the name with the list of fragments
    that [content.join] concatenates, or the error thrown. *)
Definition renderVariables (name : string) (events : list EventData)
    : string + (string * list Html) :=
  match classify events [] [] with
  | inl err => inl err
  | inr (normal, multi) =>
      let '(edges, st, (content, _)) := renderGrid normal multi in
      let arena := decomposeMultiEdges multi in
      inr (name,
           content ++ map (fun e => renderMultiEdge arena (placeOf st) (snd e)) edges)
  end.

End Renderer.

(** ** A concrete host for the examples

    The zone is UTC, strings compare by code unit (which is what the locale
    comparison gives on the ISO texts and the upper-case titles used below),
    dates read [YYYY-MM-DD] and instants read [YYYY-MM-DDTHH:MM:SS] followed
    by [Z] or by an offset [+HH:MM] or [-HH:MM]. *)

Module Iso.

Definition digit (c : ascii) : Z := Z.of_nat (nat_of_ascii c) - 48.

Fixpoint number (acc : Z) (s : string) : Z :=
  match s with
  | EmptyString => acc
  | String c s' => number (10 * acc + digit c) s'
  end.

Definition field (pos len : nat) (s : string) : Z :=
  number 0 (String.substring pos len s).

Definition date (s : string) : Z :=
  Temporal.PlainDate (field 0 4 s) (field 5 2 s) (field 8 2 s).

Definition offsetSeconds (s : string) : Z :=
  match String.get 19 s with
  | Some "+"%char => field 20 2 s * 3600 + field 23 2 s * 60
  | Some "-"%char => - (field 20 2 s * 3600 + field 23 2 s * 60)
  | _ => 0
  end.

Definition instant (s : string) : Z :=
  (date s * 86400 + field 11 2 s * 3600 + field 14 2 s * 60 + field 17 2 s
   - offsetSeconds s) * 1000000000.

Definition codeUnitCompare (a b : string) : Z :=
  match String.compare a b with
  | Lt => -1
  | Eq => 0
  | Gt => 1
  end.

Definition decimal (n : Z) : string :=
  DecimalString.NilZero.string_of_uint (N.to_uint (Z.to_N n)).

Definition monthName (m : Z) : string :=
  nth (Z.to_nat (m - 1))
    ["Jan"; "Feb"; "Mar"; "Apr"; "May"; "Jun";
     "Jul"; "Aug"; "Sep"; "Oct"; "Nov"; "Dec"] "".

Definition monDate (d : Z) : string :=
  let '(_, m, dd) := Temporal.isoFields d in
  monthName m +:+ " " +:+ decimal dd.

Definition briefTime (ns : Z) : string :=
  let minutes := ns / 60000000000 in
  let h := minutes / 60 in
  let m := minutes mod 60 in
  let h12 := if h mod 12 =? 0 then 12 else h mod 12 in
  let suffix := if h <? 12 then "am" else "pm" in
  let s := if m =? 0 then decimal h12 +:+ suffix
           else decimal h12 +:+ ":" +:+ (if m <? 10 then "0" else "")
                  +:+ decimal m +:+ suffix in
  if String.eqb s "12pm" then "noon" else s.

#[export] Instance host : Host := {|
  localeCompare := codeUnitCompare;
  PlainDate_from := date;
  Instant_from := instant;
  offsetNanosecondsFor := fun _ => 0;
  formatMonDate := monDate;
  formatBriefTime := briefTime;
  ZonedDateTime_toString := fun t => decimal (t / 1000000000);
  Number_toString := decimal
|}.

End Iso.

(** The grid of the year the program renders. *)
Definition grid2025 : CalendarRenderer := new_CalendarRenderer 2025.

Definition dateEvent (t s e : string) : Event :=
  DateEvent {| title := t; startAt := s; endAt := e; description := None |}.

Definition timedEvent (t s e : string) : Event :=
  DateTimeEvent {| title := t; startAt := s; endAt := e; description := None |}.


(** ** Example inputs *)

(** The date event of one day, 10 March 2025, with its exclusive end. *)
Definition oneDay : Event := dateEvent "D" "2025-03-10" "2025-03-11".

(** A timed event from 22:00 to 13:00 of the next day, in the zone of the
    concrete host. *)
Definition overnight : Event :=
  timedEvent "N" "2025-03-10T22:00:00Z" "2025-03-11T13:00:00Z".

(** Two date events over the same days, Monday to Thursday of one week. *)
Definition twinA : Event := dateEvent "A" "2025-03-10" "2025-03-14".
Definition twinB : Event := dateEvent "B" "2025-03-10" "2025-03-14".

(** ** Segments

    The notions in which the properties of the decomposer and of the
    allocator are stated. *)

(** A row segment: one open edge with the close edge linked to it. *)
Record Segment := {
  seg_event : Event;
  seg_open : Z;
  seg_close : Z;
  seg_definiteStart : bool;
  seg_definiteEnd : bool
}.

Definition span (s : Segment) : Z * Z := (seg_open s, seg_close s).

(** The two edges of each segment, pushed from index [k] on: the open edge of
    the i-th segment has identity [k + 2 i], its close edge [k + 2 i + 1]. *)
Fixpoint edgesOf (k : nat) (segs : list Segment) : list Edge :=
  match segs with
  | [] => []
  | s :: rest =>
      MultiEventEdge.mk (seg_open s) (seg_event s) None (seg_definiteStart s)
      :: MultiEventEdge.mk (seg_close s) (seg_event s) (Some k) (seg_definiteEnd s)
      :: edgesOf (S (S k)) rest
  end.

(** The segments of one event, cut at the ordinals [g], [g + 7], ... below
    [end_]; [lo] is where the running segment opened.  The recursion follows
    the loop of [decomposeMultiEdges] turn by turn. *)
Fixpoint rows (fuel : nat) (event : Event) (lo : Z) (definite : bool)
    (g end_ : Z) : list Segment :=
  match fuel with
  | O => [{| seg_event := event; seg_open := lo; seg_close := end_;
             seg_definiteStart := definite; seg_definiteEnd := true |}]
  | S fuel' =>
      if g <? end_ then
        {| seg_event := event; seg_open := lo; seg_close := g;
           seg_definiteStart := definite; seg_definiteEnd := false |}
        :: rows fuel' event g false (g + 7) end_
      else
        [{| seg_event := event; seg_open := lo; seg_close := end_;
            seg_definiteStart := definite; seg_definiteEnd := true |}]
  end.

Definition rowSegments {H : Host} (this : CalendarRenderer) (event : Event)
    : list Segment :=
  let start := gridOrd this (startDate event) in
  let followingSunday := start - Z.rem start 7 + 7 in
  let end_ := start + multiLength event in
  rows (Z.to_nat (end_ - followingSunday)) event start true followingSunday end_.

(** The segment a close edge delimits, read through its backward link. *)
Definition segmentOf (arena : list Edge) (edge : Edge) : option (Z * Z) :=
  match MultiEventEdge.prev edge with
  | None => None
  | Some p =>
      match arena !! p with
      | None => None
      | Some o => Some (MultiEventEdge.gridOrd o, MultiEventEdge.gridOrd edge)
      end
  end.

Definition segmentsOf (arena block : list Edge) : list (Z * Z) :=
  omap (segmentOf arena) block.

(** The sum of the lengths of segments. *)
Definition segmentsLength (segs : list (Z * Z)) : Z :=
  foldr (fun s acc => (snd s - fst s) + acc) 0 segs.

(** The segments, in order, cover [lo, hi): each is not empty, the first
    starts at [lo], each next one starts where the one before ends, the last
    ends at [hi]. *)
Fixpoint tiles (lo hi : Z) (segs : list (Z * Z)) : Prop :=
  match segs with
  | [] => lo = hi
  | s :: rest => fst s = lo /\ fst s < snd s /\ tiles (snd s) hi rest
  end.

(** The edges that [decomposeMultiEdges] pushes for the event [e] given after
    the events [before]. *)
Definition edgesFor {H : Host} (this : CalendarRenderer)
    (before : list Event) (e : Event) (arena : list Edge) : list Edge :=
  let k := length (decomposeMultiEdges this before) in
  let n := (length (decomposeMultiEdges this (before ++ [e])) - k)%nat in
  take n (drop k arena).

(** ** The sweep

    The notions in which the properties of [placeMultiEdges] are stated.
    [pre] is the part of the sorted array the sweep has gone through. *)

(** The open edge [o] has been gone through. *)
Definition opensIn (pre : list (nat * Edge)) (o : nat) : Prop :=
  exists e, (o, e) ∈ pre /\ MultiEventEdge.prev e = None.

(** A close edge linked to [o] has been gone through. *)
Definition closedIn (pre : list (nat * Edge)) (o : nat) : Prop :=
  exists c, c ∈ pre /\ MultiEventEdge.prev (snd c) = Some o.

(** The segment opened by [o] is open at this point of the sweep. *)
Definition openAt (pre : list (nat * Edge)) (o : nat) : Prop :=
  opensIn pre o /\ ~ closedIn pre o.

(** The lane [l] is occupied at this point: it is the lane of a segment that
    is open. *)
Definition occupied (lanes : gmap nat nat) (pre : list (nat * Edge))
    (l : nat) : Prop :=
  exists o, openAt pre o /\ lanes !! o = Some l.

(** The array is in the order of the comparator. *)
Definition sortedEdges {H : Host} (order : list (nat * Edge)) : Prop :=
  StronglySorted (fun x y => compareRef x y <= 0) order.

(** What the sweep relies on in the array of references: the identities are
    distinct, every backward link leads to an open edge at a smaller
    ordinal, and no two close edges share a link. *)
Record WellLinked (refs : list (nat * Edge)) : Prop := {
  wl_nodup : NoDup (refs.*1);
  wl_prev : forall x p, x ∈ refs -> MultiEventEdge.prev (snd x) = Some p ->
    exists o, (p, o) ∈ refs /\ MultiEventEdge.prev o = None
              /\ MultiEventEdge.gridOrd o < MultiEventEdge.gridOrd (snd x);
  wl_unique : forall x y p, x ∈ refs -> y ∈ refs ->
    MultiEventEdge.prev (snd x) = Some p ->
    MultiEventEdge.prev (snd y) = Some p -> x = y
}.

(** The invariant of the sweep. *)
Record SweepInv (pre : list (nat * Edge)) (st : Sweep) : Prop := {
  inv_placed : forall o, is_Some (placeOf st !! o) <-> opensIn pre o;
  inv_places : forall l, places st !! l = Some true
    <-> exists o, placeOf st !! o = Some l /\ ~ closedIn pre o;
  inv_distinct : forall o o' l,
    placeOf st !! o = Some l -> placeOf st !! o' = Some l ->
    ~ closedIn pre o -> ~ closedIn pre o' -> o = o';
  inv_last : last (places st) <> Some false
}.

(** The number of segments that cover an ordinal. *)
Definition overlapCount (segs : list (Z * Z)) (ord : Z) : nat :=
  length (filter (fun s => fst s <= ord < snd s) segs).

(** The number of occupied lanes of the array. *)
Definition occupiedCount (places : list bool) : nat :=
  length (filter (fun b => b = true) places).

(** Three date events in the first full week of 2025: A on ordinals 7 to 8,
    B on 7 to 9, C on 8 to 11. *)
Definition threeEvents : list Event :=
  [dateEvent "A" "2025-01-05" "2025-01-07";
   dateEvent "B" "2025-01-05" "2025-01-08";
   dateEvent "C" "2025-01-06" "2025-01-10"].

Definition threeSorted : list (nat * Edge) :=
  Array.sort (compareRef (H := Iso.host))
    (withIdentity (decomposeMultiEdges (H := Iso.host) grid2025 threeEvents)).

(** The order of the comparator, as a test. *)
Fixpoint sortedb {A} (cmp : A -> A -> Z) (l : list A) : bool :=
  match l with
  | [] => true
  | x :: rest => forallb (fun y => cmp x y <=? 0) rest && sortedb cmp rest
  end.

(** ** The day cells *)



(** A comparator is consistent when swapping its arguments swaps the sign of
    its answer and its non-positive answers chain. *)
Definition Consistent {A} (cmp : A -> A -> Z) : Prop :=
  (forall a b, cmp a b < 0 <-> 0 < cmp b a)
  /\ (forall a b c, cmp a b <= 0 -> cmp b c <= 0 -> cmp a c <= 0).

(** The comparison of strings by locale is a consistent comparator. *)
Class HostLaws (H : Host) : Prop :=
  localeCompare_consistent : Consistent localeCompare.

(** An event has no time on one end only. *)
Definition endsAgree (d : EventData) : Prop :=
  Str.includes "T" (endAt d) = Str.includes "T" (startAt d).



(** Two timed events of one hour on 10 March 2025, at 09:00 and 14:00 UTC. *)
Definition morningEvent : EventData :=
  {| title := "M"; startAt := "2025-03-10T09:00:00Z";
     endAt := "2025-03-10T10:30:00Z"; description := None |}.

(** The timed events that do not span, as [renderVariables] collects them in
    [normal], and the events it collects in [multi]. *)
Definition nonSpanning {H : Host} (events : list EventData) : list Event :=
  flat_map (fun d =>
              if Str.includes "T" (startAt d)
              then (if 0 <? multiLength (DateTimeEvent d) then []
                    else [DateTimeEvent d])
              else []) events.

Definition spanning {H : Host} (events : list EventData) : list Event :=
  flat_map (fun d =>
              if Str.includes "T" (startAt d)
              then (if 0 <? multiLength (DateTimeEvent d) then [DateTimeEvent d]
                    else [])
              else [DateEvent d]) events.


(** A comparator that asks a second one where the first answers zero. *)
Definition lexCompare {A} (c1 c2 : A -> A -> Z) (a b : A) : Z :=
  if negb (c1 a b =? 0) then c1 a b else c2 a b.

(** A date event from Saturday 8 March 2025 to Monday 17 March, its
    exclusive end being the 18th. *)
Definition tenDays : Event := dateEvent "D" "2025-03-08" "2025-03-18".

(** ** Notions for the further properties *)

(** The reserved space in effect on grid day [i]: the record of
    [allocatedSpace] at the last ordinal from 0 to [i] that has one, and 0 when
    there is none. *)
Fixpoint spaceAt (allocated : gmap Z nat) (i : nat) : nat :=
  match allocated !! Z.of_nat i with
  | Some s => s
  | None => match i with O => O | S j => spaceAt allocated j end
  end.

(** The value of [space] when the loop over the grid days enters day [i]. *)
Definition spaceBefore (allocated : gmap Z nat) (i : nat) : nat :=
  match i with O => O | S j => spaceAt allocated j end.

(** The spacer of a day cell. *)
Definition spacer (space : nat) : list CellItem :=
  if (0 <? space)%nat then [SpaceDiv space] else [].

(** The test [prev.place != null] of [placeMultiEdges], line 544, on a close
    edge: whether the open edge it links to has a lane yet. *)
Definition closeGuard (st : Sweep) (edge : nat * Edge) : bool :=
  match MultiEventEdge.prev (snd edge) with
  | None => false
  | Some prev => bool_decide (is_Some (placeOf st !! prev))
  end.

(** The condition of [console.assert(places[prev.place])], line 545: the
    lane about to be freed is occupied. *)
Definition assertOccupied (st : Sweep) (edge : nat * Edge) : bool :=
  match MultiEventEdge.prev (snd edge) with
  | None => true
  | Some prev =>
      match placeOf st !! prev with
      | None => true
      | Some place => bool_decide (places st !! place = Some true)
      end
  end.

(** The bars among the fragments of the output. *)
Definition bars (content : list Html) : list MultiDiv :=
  omap (fun h => match h with HtmlMulti m => Some m | _ => None end) content.

(** The classes of the bar of a segment. *)
Definition barClasses (definiteStart definiteEnd : bool) : list string :=
  ["event"; "multi"]
    ++ (if negb definiteStart then ["indefinite-start"] else [])
    ++ (if negb definiteEnd then ["indefinite-end"] else []).

(** A date event from Friday 27 December 2024 to Thursday 2 January 2025: it
    starts two days before the grid of 2025. *)
Definition yearEnd : Event := dateEvent "Y" "2024-12-27" "2025-01-03".


(** The data of a date event over ten days of March 2025. *)
Definition tenDaysData : EventData :=
  {| title := "D"; startAt := "2025-03-08"; endAt := "2025-03-18";
     description := None |}.

(** The bar of a row segment whose open edge has identity [k]: the box of
    [renderMultiEdge] read on the segment. *)
Definition barOf (placed : gmap nat nat) (k : nat) (s : Segment) : MultiDiv :=
  {| multi_classes := barClasses (seg_definiteStart s) (seg_definiteEnd s);
     multi_row := gridRow (seg_open s);
     multi_left := gridCol (seg_open s);
     multi_right := gridCol (seg_close s - 1) + 1;
     multi_place := placed !! k;
     multi_event := seg_event s |}.

(** ** The renderer that draws one bar for each row

    The third listing of [main.ts], lines 641-920, has no lanes: an event of
    several days is drawn as one bar in each grid row it crosses. *)

Module ByRows.

(** The constructor, lines 807-813: the number of days is not made
    inclusive. *)
Definition new_CalendarRenderer (year : Z) : CalendarRenderer :=
  let jan1 := Temporal.PlainDate year 1 1 in
  let calendarStart := jan1 - Temporal.dayOfWeek jan1 in
  let dec31 := Temporal.PlainDate year 12 31 in
  let limit := dec31 + (6 - Temporal.dayOfWeek dec31) in
  {| calendarStart := calendarStart; calendarDays := limit - calendarStart |}.

(** [gridCoords], lines 815-820: the row and the column. *)
Definition gridCoords (this : CalendarRenderer) (date : Z) : Z * Z :=
  let index := date - calendarStart this in
  (index / 7 + 1, Z.rem index 7 + 1).

(** The [data-area] of a bar: row, left and right. *)
Record Bar := { bar_row : Z; bar_left : Z; bar_right : Z }.

(** The loop of [renderMultiDayEvent], lines 846-862, from the two dates
    [event.gridStart] and [event.gridEnd]: one turn for each row from
    [start.row] up to [end.row]. *)
Definition renderMultiDayEvent (this : CalendarRenderer) (gridStart gridEnd : Z)
    : list Bar :=
  let start := gridCoords this gridStart in
  let end_ := gridCoords this gridEnd in
  map (fun k =>
         let row := fst start + Z.of_nat k in
         {| bar_row := row;
            bar_left := if row =? fst start then snd start else 1;
            bar_right := if row =? fst end_ then snd end_ + 1 else -1 |})
    (seq 0 (Z.to_nat (fst end_ - fst start + 1))).

(** The days a bar covers: a right of -1 is the last grid line, after the
    seventh column. *)
Definition barDays (b : Bar) : Z :=
  (if bar_right b =? -1 then 8 else bar_right b) - bar_left b.

Definition totalDays (bars : list Bar) : Z :=
  foldr (fun b acc => barDays b + acc) 0 bars.

End ByRows.

(** ** The renderer that walks the weeks

    The first listing of [main.ts], lines 1-276, has no day count: it renders
    week after week. *)

Module ByWeeks.

(** The loop of [renderVariables], lines 236-243: the weeks rendered, by
    their first day, while the week starts before the limit. *)
Fixpoint weeks (fuel : nat) (week limit : Z) : list Z :=
  match fuel with
  | O => []
  | S fuel' =>
      if week <? limit then week :: weeks fuel' (week + 7) limit else []
  end.

(** The weeks of a year, lines 233-235: from the start computed for 1 January
    up to 1 January of the next year.  No more turns are taken than days lie
    between the two. *)
Definition renderedWeeks (year : Z) : list Z :=
  let jan1 := Temporal.PlainDate year 1 1 in
  let week := jan1 - Temporal.dayOfWeek jan1 in
  let limit := Temporal.PlainDate (year + 1) 1 1 in
  weeks (Z.to_nat (limit - week)) week limit.

End ByWeeks.
(** * Properties *)

Example grid2025_start : calendarStart grid2025 = Temporal.PlainDate 2024 12 29.
Proof. reflexivity. Qed.

Example grid2025_days : calendarDays grid2025 = 371.
Proof. reflexivity. Qed.

(** The brief texts of the concrete host, on a timed event of 10 March
    from 09:00 to 10:30. *)
Example scenarioA_time :
  formatTime (H := Iso.host) (DateTimeEvent morningEvent)
  = "Mar 10 9am&ndash;10:30am"%string.
Proof. vm_compute. reflexivity. Qed.

Example scenarioB_edges :
  decomposeMultiEdges (H := Iso.host) grid2025
    [dateEvent "B" "2025-03-10" "2025-03-14"]
  = [MultiEventEdge.mk 71 (dateEvent "B" "2025-03-10" "2025-03-14") None true;
     MultiEventEdge.mk 75 (dateEvent "B" "2025-03-10" "2025-03-14") (Some 0%nat) true].
Proof. vm_compute. reflexivity. Qed.

(** Two date events over the same days: lanes 0 and 1 in the order of
    [compare], which falls to the titles. *)
Example scenarioC_lanes :
  placeOf (placeMultiEdges
             (Array.sort (compareRef (H := Iso.host))
                (withIdentity
                   (decomposeMultiEdges (H := Iso.host) grid2025 [twinB; twinA]))))
  = {[ 0%nat := 1%nat; 2%nat := 0%nat ]}.
Proof. vm_compute. reflexivity. Qed.

(** Ten days from a Saturday: the Saturday alone, a full week, Sunday and
    Monday; the inner edges are indefinite. *)
Example scenarioD_rows :
  segmentsOf (decomposeMultiEdges (H := Iso.host) grid2025 [tenDays])
    (decomposeMultiEdges (H := Iso.host) grid2025 [tenDays])
  = [(69, 70); (70, 77); (77, 79)]
  /\ map MultiEventEdge.definite
       (decomposeMultiEdges (H := Iso.host) grid2025 [tenDays])
     = [true; false; false; false; false; true].
Proof. vm_compute. split; reflexivity. Qed.
(** ** Escaping *)

Section Escaping.

Lemma includes_append c a b :
  Str.includes c (a +:+ b) = Str.includes c a || Str.includes c b.
Proof.
  induction a as [|x a IH]; simpl; [done|].
  destruct (Ascii.eqb x c); [done|apply IH].
Qed.

Lemma replaceAll_removes c rep s :
  Str.includes c rep = false -> Str.includes c (Str.replaceAll c rep s) = false.
Proof.
  intros Hrep. induction s as [|x s IH]; simpl; [done|].
  destruct (Ascii.eqb x c) eqn:E.
  - change (String.append ?a ?b) with (a +:+ b).
    rewrite includes_append, Hrep, IH. done.
  - simpl. rewrite E. exact IH.
Qed.

Lemma replaceAll_keeps_absent c pat rep s :
  Str.includes c s = false -> Str.includes c rep = false ->
  Str.includes c (Str.replaceAll pat rep s) = false.
Proof.
  intros Hs Hrep. induction s as [|x s IH]; simpl in *; [done|].
  destruct (Ascii.eqb x c) eqn:E; [done|].
  destruct (Ascii.eqb x pat).
  - change (String.append ?a ?b) with (a +:+ b).
    rewrite includes_append, Hrep, IH; done.
  - simpl. rewrite E. auto.
Qed.

Lemma escapeHtml_lt s : Str.includes Str.lt (escapeHtml s) = false.
Proof.
  unfold escapeHtml.
  do 3 (apply replaceAll_keeps_absent; [|reflexivity]).
  apply replaceAll_removes. reflexivity.
Qed.

Lemma escapeHtml_gt s : Str.includes Str.gt (escapeHtml s) = false.
Proof.
  unfold escapeHtml.
  do 2 (apply replaceAll_keeps_absent; [|reflexivity]).
  apply replaceAll_removes. reflexivity.
Qed.

Lemma escapeHtml_dquote s : Str.includes Str.dquote (escapeHtml s) = false.
Proof.
  unfold escapeHtml.
  apply replaceAll_keeps_absent; [|reflexivity].
  apply replaceAll_removes. reflexivity.
Qed.

Lemma escapeHtml_squote s : Str.includes Str.squote (escapeHtml s) = false.
Proof. unfold escapeHtml. apply replaceAll_removes. reflexivity. Qed.

Example escapeHtml_sample :
  escapeHtml "<a href='x'>Q&A</a>" = "&lt;a href=&apos;x&apos;&gt;Q&amp;A&lt;/a&gt;".
Proof. reflexivity. Qed.

(** C10. For every string [s], [escapeHtml s] holds none of the characters
    [<], [>], the double quote and the single quote; hence for every event the
    text that [renderTitleAttr] hands to the double-quoted [title] attribute
    holds a double quote only where the time text of the host holds one:
    the title and the description contribute none. *)
Theorem escapeHtml_no_markup :
  (forall s : string,
     Str.includes Str.lt (escapeHtml s) = false
     /\ Str.includes Str.gt (escapeHtml s) = false
     /\ Str.includes Str.dquote (escapeHtml s) = false
     /\ Str.includes Str.squote (escapeHtml s) = false)
  /\ (forall (H : Host) (e : Event),
        Str.includes Str.dquote (renderTitleAttr e)
        = Str.includes Str.dquote (formatTime e)).
Proof.
  split.
  - intros s. auto using escapeHtml_lt, escapeHtml_gt, escapeHtml_dquote, escapeHtml_squote.
  - intros H e. unfold renderTitleAttr.
    destruct (description (data e)) as [desc|];
      rewrite ?includes_append, !escapeHtml_dquote; simpl;
      rewrite ?orb_false_r; reflexivity.
Qed.

End Escaping.

(** ** The event model *)

Section EventModel.

(** C5, as stated, fails on the date event of one day: its [endDate] is
    the raw end, not the day before it, and its [multiLength()] is 1. *)
Lemma DateEvent_one_day_length :
  PlainDate_from (Host := Iso.host) (endAt (data oneDay)) - 1
    = startDate (H := Iso.host) oneDay
  /\ endDate (H := Iso.host) oneDay
       <> PlainDate_from (Host := Iso.host) (endAt (data oneDay)) - 1
  /\ multiLength (H := Iso.host) oneDay = 1
  /\ multiLength (H := Iso.host) oneDay <> 0.
Proof. vm_compute. repeat split; discriminate. Qed.

(** C5, amended. For every date event, [endDate] is the raw end value (the
    exclusive end, no day subtracted), [multiLength()] is [endDate] minus
    [startDate] in days, which is one more than the inclusive end minus the
    start: 1 for a date event of a single day. *)
Theorem DateEvent_endDate_multiLength (H : Host) (d : EventData) :
  endDate (DateEvent d) = PlainDate_from (endAt d)
  /\ multiLength (DateEvent d) = endDate (DateEvent d) - startDate (DateEvent d)
  /\ multiLength (DateEvent d)
     = ((PlainDate_from (endAt d) - 1) - startDate (DateEvent d)) + 1
  /\ (PlainDate_from (endAt d) - 1 = startDate (DateEvent d) ->
      multiLength (DateEvent d) = 1).
Proof.
  unfold multiLength, endDate, startDate. repeat split; try lia.
Qed.

Lemma DateEvent_endDate_multiLength_witness :
  multiLength (H := Iso.host) oneDay = 1.
Proof.
  apply (DateEvent_endDate_multiLength Iso.host (data oneDay)).
  vm_compute. reflexivity.
Defined.

(** C6, as stated, fails on a timed event from 22:00 to 13:00 of the next
    day: it ends past noon, its rendered end date is the date of its end, one
    day after its start, and its [multiLength()] is 2. *)
Lemma DateTimeEvent_overnight_length :
  startDate (H := Iso.host) overnight <> endDate (H := Iso.host) overnight
  /\ gridEnd (H := Iso.host) (data overnight) = endDate (H := Iso.host) overnight
  /\ gridEnd (H := Iso.host) (data overnight) - startDate (H := Iso.host) overnight = 1
  /\ multiLength (H := Iso.host) overnight = 2.
Proof. vm_compute. repeat split; discriminate. Qed.

Lemma div_day_plus_half (t : Z) :
  (t + 12 * Temporal.nsPerHour) / Temporal.nsPerDay
  = t / Temporal.nsPerDay
    + (if 12 * Temporal.nsPerHour <=? t mod Temporal.nsPerDay then 1 else 0).
Proof.
  unfold Temporal.nsPerDay, Temporal.nsPerHour.
  destruct (Z.leb_spec (12 * (3600 * 1000000000))
              (t mod (24 * (3600 * 1000000000))));
    Z.div_mod_to_equations; lia.
Qed.

Lemma div_day_minus_half (t : Z) :
  (t - 12 * Temporal.nsPerHour) / Temporal.nsPerDay
  = t / Temporal.nsPerDay
    - (if 12 * Temporal.nsPerHour <=? t mod Temporal.nsPerDay then 0 else 1).
Proof.
  unfold Temporal.nsPerDay, Temporal.nsPerHour.
  destruct (Z.leb_spec (12 * (3600 * 1000000000))
              (t mod (24 * (3600 * 1000000000))));
    Z.div_mod_to_equations; lia.
Qed.

(** C6, amended. For every timed event: [multiLength()] is 0 when start and
    end share a local date.  When they do not, and the zone offset is the
    same twelve hours before and after the end as at the end, the rendered
    end date is the local date of the end if the local end time is noon or
    later and the day before otherwise, and [multiLength()] is the rendered
    end date minus [startDate] plus one. *)
Theorem DateTimeEvent_noon_rule (H : Host) (d : EventData) :
  (startDate (DateTimeEvent d) = endDate (DateTimeEvent d) ->
   multiLength (DateTimeEvent d) = 0)
  /\ (startDate (DateTimeEvent d) <> endDate (DateTimeEvent d) ->
      offsetNanosecondsFor (ZonedDateTime.addHours (zonedEndAt d) 12)
        = offsetNanosecondsFor (zonedEndAt d) ->
      offsetNanosecondsFor (ZonedDateTime.subtractHours (zonedEndAt d) 12)
        = offsetNanosecondsFor (zonedEndAt d) ->
      gridEnd d
        = (if 12 * Temporal.nsPerHour <=? ZonedDateTime.timeOfDay (zonedEndAt d)
           then endDate (DateTimeEvent d) else endDate (DateTimeEvent d) - 1)
      /\ multiLength (DateTimeEvent d)
         = gridEnd d - startDate (DateTimeEvent d) + 1).
Proof.
  split.
  - intros Heq. unfold multiLength. rewrite Heq, Z.eqb_refl. reflexivity.
  - intros Hne Hadd Hsub.
    assert (Hg : gridEnd d
      = (if 12 * Temporal.nsPerHour <=? ZonedDateTime.timeOfDay (zonedEndAt d)
         then endDate (DateTimeEvent d) else endDate (DateTimeEvent d) - 1)).
    { unfold gridEnd. apply Z.eqb_neq in Hne. rewrite Hne.
      unfold ZonedDateTime.toPlainDate at 1. rewrite Hsub.
      unfold ZonedDateTime.subtractHours.
      replace (zonedEndAt d - 12 * Temporal.nsPerHour + offsetNanosecondsFor (zonedEndAt d))
        with (zonedEndAt d + offsetNanosecondsFor (zonedEndAt d) - 12 * Temporal.nsPerHour)
        by lia.
      rewrite div_day_minus_half. unfold ZonedDateTime.timeOfDay, endDate.
      unfold ZonedDateTime.toPlainDate.
      destruct (_ <=? _); lia. }
    split; [exact Hg|].
    rewrite Hg. unfold multiLength. apply Z.eqb_neq in Hne. rewrite Hne.
    unfold ZonedDateTime.toPlainDate at 1. rewrite Hadd.
    unfold ZonedDateTime.addHours.
    replace (zonedEndAt d + 12 * Temporal.nsPerHour + offsetNanosecondsFor (zonedEndAt d))
      with (zonedEndAt d + offsetNanosecondsFor (zonedEndAt d) + 12 * Temporal.nsPerHour)
      by lia.
    rewrite div_day_plus_half. unfold ZonedDateTime.timeOfDay, endDate.
    unfold ZonedDateTime.toPlainDate.
    destruct (_ <=? _); lia.
Qed.

Lemma DateTimeEvent_noon_rule_witness :
  gridEnd (H := Iso.host) (data overnight)
    = (if 12 * Temporal.nsPerHour
            <=? ZonedDateTime.timeOfDay (H := Iso.host)
                 (zonedEndAt (H := Iso.host) (data overnight))
       then endDate (H := Iso.host) overnight
       else endDate (H := Iso.host) overnight - 1)
  /\ multiLength (H := Iso.host) overnight
     = gridEnd (H := Iso.host) (data overnight)
       - startDate (H := Iso.host) overnight + 1.
Proof.
  apply (DateTimeEvent_noon_rule Iso.host (data overnight)).
  - vm_compute. discriminate.
  - reflexivity.
  - reflexivity.
Defined.

End EventModel.

(** ** The grid of a year *)

Section Grid.

Lemma dayOfWeek_range (d : Z) : 1 <= Temporal.dayOfWeek d <= 7.
Proof. unfold Temporal.dayOfWeek. Z.div_mod_to_equations. lia. Qed.

(** For every year the grid starts on a Sunday, ends on a Saturday and holds
    a whole number of weeks. *)
Lemma grid_whole_weeks (year : Z) :
  Temporal.dayOfWeek (calendarStart (new_CalendarRenderer year)) = 7
  /\ Temporal.dayOfWeek (lastGridDay (new_CalendarRenderer year)) = 6
  /\ calendarDays (new_CalendarRenderer year) mod 7 = 0.
Proof.
  unfold lastGridDay, new_CalendarRenderer, Temporal.dayOfWeek. simpl.
  generalize (Temporal.PlainDate year 1 1), (Temporal.PlainDate year 12 31).
  intros a b. repeat split; Z.div_mod_to_equations; lia.
Qed.

(** The start is the last Sunday strictly before 1 January, and the end is
    the first Saturday on or after 30 December. *)
Lemma grid_bounds (year : Z) :
  Temporal.PlainDate year 1 1 - 7 <= calendarStart (new_CalendarRenderer year)
    < Temporal.PlainDate year 1 1
  /\ Temporal.PlainDate year 12 31 - 1 <= lastGridDay (new_CalendarRenderer year)
    <= Temporal.PlainDate year 12 31 + 5.
Proof.
  unfold lastGridDay, new_CalendarRenderer. simpl.
  pose proof (dayOfWeek_range (Temporal.PlainDate year 1 1)).
  pose proof (dayOfWeek_range (Temporal.PlainDate year 12 31)).
  lia.
Qed.

(** C4 on the year 2023, whose 1 January and 31 December are Sundays: the
    constructor starts the grid on 25 December 2022, a week before the Sunday
    that is 1 January, and ends it on Saturday 30 December 2023, so that
    31 December 2023 is not a cell of the grid.  The count of cells, 371,
    is a multiple of 7. *)
Theorem new_CalendarRenderer_2023 :
  Temporal.dayOfWeek (Temporal.PlainDate 2023 1 1) = 7
  /\ Temporal.dayOfWeek (Temporal.PlainDate 2023 12 31) = 7
  /\ calendarStart (new_CalendarRenderer 2023) = Temporal.PlainDate 2022 12 25
  /\ calendarStart (new_CalendarRenderer 2023) <> Temporal.PlainDate 2023 1 1
  /\ lastGridDay (new_CalendarRenderer 2023) = Temporal.PlainDate 2023 12 30
  /\ lastGridDay (new_CalendarRenderer 2023) < Temporal.PlainDate 2023 12 31
  /\ calendarDays (new_CalendarRenderer 2023) = 371.
Proof. vm_compute. repeat split; discriminate. Qed.

End Grid.

(** ** The comparator of edges *)

Section Comparator.

(** C1 on two date events over the same days: their two close edges are
    distinct edges at the same grid ordinal, and [compareMultiEdge] answers
    -1 for them in both orders; it stops at the comparison of the two
    backward links and never reaches the definite flag or the events. *)
Theorem compareMultiEdge_two_closes :
  exists a b : Edge,
    decomposeMultiEdges (H := Iso.host) grid2025 [twinA; twinB] !! 1%nat = Some a
    /\ decomposeMultiEdges (H := Iso.host) grid2025 [twinA; twinB] !! 3%nat = Some b
    /\ a <> b
    /\ MultiEventEdge.gridOrd a = 75 /\ MultiEventEdge.gridOrd b = 75
    /\ MultiEventEdge.prev a = Some 0%nat /\ MultiEventEdge.prev b = Some 2%nat
    /\ compareMultiEdge (H := Iso.host) a b = -1
    /\ compareMultiEdge (H := Iso.host) b a = -1.
Proof.
  eexists _, _. split; [vm_compute; reflexivity|].
  split; [vm_compute; reflexivity|].
  vm_compute. repeat split; discriminate.
Qed.

(** The same holds on every host: two close edges at one ordinal with
    different backward links compare as -1 in both orders. *)
Lemma compareMultiEdge_closes (H : Host) (a b : Edge) (i j : nat) :
  MultiEventEdge.gridOrd a = MultiEventEdge.gridOrd b ->
  MultiEventEdge.prev a = Some i -> MultiEventEdge.prev b = Some j -> i <> j ->
  compareMultiEdge a b = -1 /\ compareMultiEdge b a = -1.
Proof.
  intros Hord Ha Hb Hij. unfold compareMultiEdge.
  rewrite Hord, Z.eqb_refl, Ha, Hb.
  repeat case_bool_decide; simpl; split; congruence.
Qed.

End Comparator.

(** ** The decomposer *)

Section Decomposer.
Context {H : Host}.
Variable this : CalendarRenderer.

Lemma length_edgesOf k segs : length (edgesOf k segs) = (2 * length segs)%nat.
Proof. revert k. induction segs as [|s segs IH]; intros k; simpl; [done|]. rewrite IH. lia. Qed.

Lemma edgesOf_app k a b :
  edgesOf k (a ++ b) = edgesOf k a ++ edgesOf (k + 2 * length a) b.
Proof.
  revert k. induction a as [|s a IH]; intros k; simpl.
  - f_equal. simpl. lia.
  - rewrite IH.
    replace (S (S k) + 2 * length a)%nat with (k + 2 * S (length a))%nat by lia.
    reflexivity.
Qed.

(** The loop of the decomposer, followed by the push of the trailing edge,
    emits the two edges of each segment of [rows]. *)
Lemma weekBoundaries_rows fuel : forall pre lo definite g end_ e,
  (let '(prev, edges) :=
     weekBoundaries fuel g end_ e (length pre)
       (pre ++ [MultiEventEdge.mk lo e None definite]) in
   edges ++ [MultiEventEdge.mk end_ e (Some prev) true])
  = pre ++ edgesOf (length pre) (rows fuel e lo definite g end_).
Proof.
  induction fuel as [|fuel IH]; intros pre lo definite g end_ e; simpl.
  - rewrite <- app_assoc. reflexivity.
  - destruct (g <? end_).
    + set (pre' := pre ++ [MultiEventEdge.mk lo e None definite;
                           MultiEventEdge.mk g e (Some (length pre)) false]).
      replace ((pre ++ [MultiEventEdge.mk lo e None definite])
               ++ [MultiEventEdge.mk g e (Some (length pre)) false])
        with pre' by (unfold pre'; rewrite <- app_assoc; reflexivity).
      assert (Hlen : length pre' = S (S (length pre))).
      { unfold pre'. rewrite length_app. simpl. lia. }
      rewrite (IH pre' g false (g + 7) end_ e), Hlen.
      unfold pre'. rewrite <- app_assoc. reflexivity.
    + rewrite <- app_assoc. reflexivity.
Qed.

(** The turns given to the loop are enough: with any greater number the
    loop returns the same, so it ends on its own test. *)
Lemma weekBoundaries_fuel fuel1 : forall fuel2 g end_ e prev edges,
  (Z.to_nat (end_ - g) <= fuel1)%nat -> (Z.to_nat (end_ - g) <= fuel2)%nat ->
  weekBoundaries fuel1 g end_ e prev edges
  = weekBoundaries fuel2 g end_ e prev edges.
Proof.
  induction fuel1 as [|fuel1 IH]; intros [|fuel2] g end_ e prev edges H1 H2;
    simpl; try reflexivity.
  - destruct (Z.ltb_spec g end_); [lia|reflexivity].
  - destruct (Z.ltb_spec g end_); [lia|reflexivity].
  - destruct (Z.ltb_spec g end_); [|reflexivity]. apply IH; lia.
Qed.

Lemma decomposeEvent_rows edges e :
  decomposeEvent this edges e
  = edges ++ edgesOf (length edges) (rowSegments this e).
Proof.
  unfold decomposeEvent, rowSegments.
  apply (weekBoundaries_rows _ edges).
Qed.

Lemma decomposeMultiEdges_from events : forall segs,
  fold_left (decomposeEvent this) events (edgesOf 0 segs)
  = edgesOf 0 (segs ++ flat_map (rowSegments this) events).
Proof.
  induction events as [|e events IH]; intros segs; simpl.
  - rewrite app_nil_r. reflexivity.
  - rewrite decomposeEvent_rows, length_edgesOf.
    replace (edgesOf 0 segs ++ edgesOf (2 * length segs) (rowSegments this e))
      with (edgesOf 0 (segs ++ rowSegments this e))
      by (rewrite edgesOf_app; reflexivity).
    rewrite IH, <- app_assoc. reflexivity.
Qed.

(** The array of the decomposer is the array of the edges of the row
    segments of its events, in order. *)
Lemma decomposeMultiEdges_rows events :
  decomposeMultiEdges this events
  = edgesOf 0 (flat_map (rowSegments this) events).
Proof. apply (decomposeMultiEdges_from events []). Qed.

(** Reading the segments back through the backward links. *)
Lemma segmentsOf_edgesOf segs : forall pre post,
  segmentsOf (pre ++ edgesOf (length pre) segs ++ post)
    (edgesOf (length pre) segs)
  = map span segs.
Proof.
  induction segs as [|s segs IH]; intros pre post; [reflexivity|].
  simpl. unfold segmentsOf in *. simpl.
  unfold segmentOf at 1. simpl.
  rewrite lookup_app_r, Nat.sub_diag by lia. simpl.
  f_equal.
  set (o := MultiEventEdge.mk (seg_open s) (seg_event s) None (seg_definiteStart s)).
  set (c := MultiEventEdge.mk (seg_close s) (seg_event s) (Some (length pre)) (seg_definiteEnd s)).
  specialize (IH (pre ++ [o; c]) post).
  rewrite length_app in IH. simpl in IH.
  replace (length pre + 2)%nat with (S (S (length pre))) in IH by lia.
  rewrite <- app_assoc in IH. exact IH.
Qed.

Lemma rows_event fuel : forall e lo definite g end_,
  Forall (fun s => seg_event s = e) (rows fuel e lo definite g end_).
Proof.
  induction fuel as [|fuel IH]; intros; simpl.
  - repeat constructor.
  - destruct (g <? end_); repeat constructor. apply IH.
Qed.

Lemma edgesOf_event e k segs :
  Forall (fun s => seg_event s = e) segs ->
  Forall (fun x => MultiEventEdge.event x = e) (edgesOf k segs).
Proof.
  intros Hs. revert k. induction Hs; intros k; simpl; repeat constructor; auto.
Qed.

Lemma rows_length fuel : forall e lo definite g end_,
  segmentsLength (map span (rows fuel e lo definite g end_)) = end_ - lo.
Proof.
  induction fuel as [|fuel IH]; intros; simpl.
  - lia.
  - destruct (g <? end_); simpl; [rewrite IH|]; lia.
Qed.

Lemma rows_tiles fuel : forall e lo definite g end_,
  lo < g -> lo < end_ ->
  tiles lo end_ (map span (rows fuel e lo definite g end_)).
Proof.
  induction fuel as [|fuel IH]; intros e lo definite g end_ Hg Hend; simpl.
  - auto.
  - destruct (Z.ltb_spec g end_); simpl; [|auto].
    repeat split; [exact Hg|]. apply IH; lia.
Qed.

(** With enough turns, every segment stays in one row of the grid. *)
Lemma rows_one_row fuel : forall e lo definite g end_,
  0 <= lo -> lo < g -> lo < end_ -> g = 7 * (lo / 7) + 7 ->
  (Z.to_nat (end_ - g) <= fuel)%nat ->
  Forall (fun s => gridRow (fst s) = gridRow (snd s - 1))
    (map span (rows fuel e lo definite g end_)).
Proof.
  unfold gridRow.
  induction fuel as [|fuel IH]; intros e lo definite g end_ H0 Hg Hend Hweek Hfuel; simpl.
  - repeat constructor. simpl. Z.div_mod_to_equations. lia.
  - destruct (Z.ltb_spec g end_); simpl.
    + constructor; [simpl; Z.div_mod_to_equations; lia|].
      apply IH; try lia.
      subst g. Z.div_mod_to_equations. lia.
    + repeat constructor. simpl. Z.div_mod_to_equations. lia.
Qed.

Lemma followingSunday_after start : start < start - Z.rem start 7 + 7.
Proof. pose proof (Z.rem_bound_pos_neg start 7) as Hb.
  destruct (Z.le_gt_cases 0 start).
  - pose proof (Z.rem_bound_pos start 7). lia.
  - pose proof (Z.rem_bound_neg_pos start 7). lia.
Qed.

Lemma followingSunday_week start :
  0 <= start -> start - Z.rem start 7 + 7 = 7 * (start / 7) + 7.
Proof. intros. rewrite Z.rem_mod_nonneg by lia. Z.div_mod_to_equations. lia. Qed.

Lemma edgesFor_rows before e after :
  edgesFor this before e (decomposeMultiEdges this (before ++ e :: after))
  = edgesOf (length (decomposeMultiEdges this before)) (rowSegments this e).
Proof.
  unfold edgesFor. rewrite !decomposeMultiEdges_rows, !flat_map_app. simpl.
  rewrite app_nil_r, !edgesOf_app, drop_app_length.
  rewrite length_app, length_edgesOf, !length_edgesOf.
  replace (2 * length (flat_map (rowSegments this) before)
           + 2 * length (rowSegments this e)
           - 2 * length (flat_map (rowSegments this) before))%nat
    with (length (edgesOf (0 + 2 * length (flat_map (rowSegments this) before))
                    (rowSegments this e)))
    by (rewrite length_edgesOf; lia).
  rewrite take_app_length. reflexivity.
Qed.

(** C7, as stated, fails on a date event from Monday to Thursday of one
    week: its only segment runs from ordinal 71 to ordinal 75, of length 4,
    which is its [multiLength()] and not one more. *)
Lemma decompose_length_not_plus_one :
  segmentsOf (decomposeMultiEdges (H := Iso.host) grid2025 ([] ++ twinA :: []))
    (edgesFor (H := Iso.host) grid2025 [] twinA
       (decomposeMultiEdges (H := Iso.host) grid2025 ([] ++ twinA :: [])))
  = [(71, 75)]
  /\ segmentsLength [(71, 75)] = 4
  /\ multiLength (H := Iso.host) twinA + 1 = 5.
Proof. vm_compute. repeat split. Qed.

End Decomposer.

(** C7, amended. For every event given to the decomposer, among any others:
    the edges pushed for it all belong to it; the lengths of its segments
    (each read from a close edge and the open edge it links back to) sum to
    [multiLength()]; when [multiLength()] is positive the segments tile the
    ordinals from that of the start date up to it plus [multiLength()], with
    no gap, no overlap and no empty segment; and when moreover the start is
    not before the grid, each segment lies in one grid row. *)
Theorem decomposeMultiEdges_tiles (H : Host) (this : CalendarRenderer)
    (before : list Event) (e : Event) (after : list Event) :
  let arena := decomposeMultiEdges this (before ++ e :: after) in
  let block := edgesFor this before e arena in
  let start := gridOrd this (startDate e) in
  Forall (fun x => MultiEventEdge.event x = e) block
  /\ segmentsLength (segmentsOf arena block) = multiLength e
  /\ (0 < multiLength e ->
      tiles start (start + multiLength e) (segmentsOf arena block))
  /\ (0 < multiLength e -> 0 <= start ->
      Forall (fun s => gridRow (fst s) = gridRow (snd s - 1))
        (segmentsOf arena block)).
Proof.
  intros arena block start.
  assert (Hblock : block
    = edgesOf (length (decomposeMultiEdges this before)) (rowSegments this e)).
  { apply edgesFor_rows. }
  assert (Hsegs : segmentsOf arena block = map span (rowSegments this e)).
  { rewrite Hblock. unfold arena.
    rewrite (decomposeMultiEdges_rows this (before ++ e :: after)), flat_map_app.
    simpl. rewrite !edgesOf_app.
    rewrite <- (decomposeMultiEdges_rows this before).
    replace (0 + 2 * length (flat_map (rowSegments this) before))%nat
      with (length (decomposeMultiEdges this before))
      by (rewrite decomposeMultiEdges_rows, length_edgesOf; lia).
    apply segmentsOf_edgesOf. }
  rewrite Hsegs. split; [|split; [|split]].
  - rewrite Hblock. apply edgesOf_event, rows_event.
  - unfold rowSegments. rewrite rows_length. lia.
  - intros Hpos. unfold rowSegments. apply rows_tiles.
    + apply followingSunday_after.
    + fold start. lia.
  - intros Hpos Hstart. unfold rowSegments. apply rows_one_row.
    + exact Hstart.
    + apply followingSunday_after.
    + fold start. lia.
    + apply followingSunday_week. exact Hstart.
    + lia.
Qed.

Lemma decomposeMultiEdges_tiles_witness :
  tiles (gridOrd grid2025 (startDate (H := Iso.host) twinA))
    (gridOrd grid2025 (startDate (H := Iso.host) twinA)
     + multiLength (H := Iso.host) twinA)
    (segmentsOf (decomposeMultiEdges (H := Iso.host) grid2025 ([] ++ twinA :: []))
       (edgesFor (H := Iso.host) grid2025 [] twinA
          (decomposeMultiEdges (H := Iso.host) grid2025 ([] ++ twinA :: [])))).
Proof.
  apply (decomposeMultiEdges_tiles Iso.host grid2025 [] twinA []).
  vm_compute. reflexivity.
Defined.

(** ** The array of lanes *)

Section LaneArray.

Lemma firstFree_le (l : list bool) : (firstFree l <= length l)%nat.
Proof. induction l as [|[] l IH]; simpl; lia. Qed.

Lemma firstFree_free (l : list bool) : l !! firstFree l <> Some true.
Proof. induction l as [|[] l IH]; simpl; [done|exact IH|done]. Qed.

Lemma firstFree_below (l : list bool) (k : nat) :
  (k < firstFree l)%nat -> l !! k = Some true.
Proof.
  revert k. induction l as [|[] l IH]; intros k Hk; simpl in *; try lia.
  destruct k as [|k]; [done|]. simpl. apply IH. lia.
Qed.

Lemma lookup_occupy (l : list bool) (place k : nat) :
  (place <= length l)%nat ->
  occupy l place !! k = Some true <-> k = place \/ l !! k = Some true.
Proof.
  intros Hle. unfold occupy.
  destruct (Nat.ltb_spec place (length l)) as [Hlt|Hge].
  - destruct (decide (k = place)) as [->|Hne].
    + rewrite list_lookup_insert_eq by done. split; auto.
    + rewrite list_lookup_insert_ne by done. split; [auto|]. by intros [?|?].
  - assert (place = length l) as -> by lia.
    rewrite Nat.sub_diag. simpl.
    destruct (decide (k < length l)%nat) as [Hk|Hk].
    + rewrite lookup_app_l by done. split; [auto|]. intros [->|]; [lia|done].
    + rewrite lookup_app_r by lia.
      rewrite (lookup_ge_None_2 l k) by lia.
      destruct (k - length l)%nat as [|n] eqn:E; simpl.
      * split; [intros _; left; lia|done].
      * split; [done|]. intros [->|]; [lia|done].
Qed.

Lemma last_occupy (l : list bool) (place : nat) :
  (place <= length l)%nat -> last l <> Some false ->
  last (occupy l place) <> Some false.
Proof.
  intros Hle Hlast. unfold occupy.
  destruct (Nat.ltb_spec place (length l)) as [Hlt|Hge].
  - rewrite last_lookup, length_insert.
    destruct (decide (pred (length l) = place)) as [<-|Hne].
    + rewrite list_lookup_insert_eq by lia. done.
    + rewrite list_lookup_insert_ne by done. rewrite <- last_lookup. done.
  - assert (place = length l) as -> by lia.
    rewrite Nat.sub_diag. simpl. rewrite last_snoc. done.
Qed.

Lemma lookup_vacate (l : list bool) (i k : nat) :
  vacate l i !! k = Some true <-> k <> i /\ l !! k = Some true.
Proof.
  unfold vacate. destruct (decide (k = i)) as [->|Hne].
  - destruct (decide (i < length l)%nat).
    + rewrite list_lookup_insert_eq by done. split; [done|]. by intros [? _].
    + rewrite list_insert_ge by lia. rewrite lookup_ge_None_2 by lia.
      split; [done|]. by intros [? _].
  - rewrite list_lookup_insert_ne by done. split; [auto|]. by intros [_ ?].
Qed.

Lemma popHoles_cons (b : bool) (l : list bool) :
  popHoles (b :: l)
  = match popHoles l with [] => if b then [b] else [] | r => b :: r end.
Proof. reflexivity. Qed.

Lemma lookup_popHoles (l : list bool) (k : nat) :
  popHoles l !! k = Some true <-> l !! k = Some true.
Proof.
  revert k. induction l as [|b l IH]; intros k; [done|].
  rewrite popHoles_cons.
  destruct (popHoles l) as [|b' r] eqn:E.
  - destruct k as [|k]; simpl.
    + destruct b; simpl; split; done.
    + rewrite <- IH. destruct b; simpl; split; done.
  - destruct k as [|k]; simpl; [done|]. apply IH.
Qed.

Lemma last_popHoles (l : list bool) : last (popHoles l) <> Some false.
Proof.
  induction l as [|b l IH]; [done|].
  rewrite popHoles_cons.
  destruct (popHoles l) as [|b' r] eqn:E.
  - destruct b; done.
  - rewrite last_cons_cons. exact IH.
Qed.

Lemma popHoles_length (l : list bool) : (length (popHoles l) <= length l)%nat.
Proof.
  induction l as [|b l IH]; [done|].
  rewrite popHoles_cons.
  destruct (popHoles l) as [|b' r] eqn:E; [destruct b|]; simpl in *; lia.
Qed.

(** An array without a hole at its end is as long as its highest occupied
    index asks: empty with nothing occupied, or one longer than that index. *)
Lemma length_highest (l : list bool) :
  last l <> Some false ->
  (length l = 0%nat /\ forall k, l !! k <> Some true)
  \/ (exists top, length l = S top /\ l !! top = Some true
        /\ forall k, l !! k = Some true -> (k <= top)%nat).
Proof.
  intros Hlast. destruct (last l) as [b|] eqn:E.
  - right. exists (pred (length l)).
    rewrite last_lookup in E.
    assert (length l <> 0%nat).
    { intros Hz. apply length_zero_iff_nil in Hz. subst l. done. }
    split; [lia|]. split.
    + destruct b; [exact E|done].
    + intros k Hk. apply lookup_lt_Some in Hk. lia.
  - left. apply last_None in E. subst l. split; [done|]. intros k. done.
Qed.

End LaneArray.

(** ** The sweep over a sorted, well-linked array *)

Section Sweep.
Context {H : Host}.
Variables refs order : list (nat * Edge).
Hypothesis Hlinked : WellLinked refs.
Hypothesis Hperm : order ≡ₚ refs.
Hypothesis Hsorted : sortedEdges order.

Lemma compareRef_le_ord (x y : nat * Edge) :
  compareRef x y <= 0 ->
  MultiEventEdge.gridOrd (snd x) <= MultiEventEdge.gridOrd (snd y).
Proof.
  unfold compareRef, compareMultiEdge.
  destruct (Z.eqb_spec (MultiEventEdge.gridOrd (snd x))
              (MultiEventEdge.gridOrd (snd y))) as [->|Hne]; simpl; [lia|].
  destruct (Z.ltb_spec (MultiEventEdge.gridOrd (snd x))
              (MultiEventEdge.gridOrd (snd y))); lia.
Qed.

Lemma same_identity (l : list (nat * Edge)) i a b :
  NoDup (l.*1) -> (i, a) ∈ l -> (i, b) ∈ l -> a = b.
Proof.
  induction l as [|[j c] l IH]; simpl; intros Hnd Ha Hb.
  - by apply elem_of_nil in Ha.
  - apply NoDup_cons in Hnd as [Hj Hnd].
    apply elem_of_cons in Ha as [Ha|Ha]; apply elem_of_cons in Hb as [Hb|Hb].
    + congruence.
    + exfalso. apply Hj. apply list_elem_of_fmap. exists (i, b).
      split; [simpl; congruence|done].
    + exfalso. apply Hj. apply list_elem_of_fmap. exists (i, a).
      split; [simpl; congruence|done].
    + by apply IH.
Qed.

Lemma order_nodup : NoDup (order.*1).
Proof. rewrite Hperm. apply Hlinked. Qed.

Lemma order_refs x : x ∈ order <-> x ∈ refs.
Proof. by rewrite Hperm. Qed.

Section Split.
Variables (pre post : list (nat * Edge)) (x : nat * Edge).
Hypothesis Hsplit : order = pre ++ x :: post.

Lemma split_fresh : fst x ∉ pre.*1.
Proof.
  pose proof order_nodup as Hnd. rewrite Hsplit, fmap_app in Hnd.
  apply NoDup_app in Hnd as (_ & Hdis & _).
  intros Hin. apply (Hdis _ Hin). simpl. apply elem_of_cons. by left.
Qed.

Lemma split_before y :
  y ∈ pre -> MultiEventEdge.gridOrd (snd y) <= MultiEventEdge.gridOrd (snd x).
Proof.
  intros Hy. apply compareRef_le_ord.
  unfold sortedEdges in Hsorted. rewrite Hsplit in Hsorted.
  apply (StronglySorted_app_1_elem_of _ _ _ _ _ Hsorted Hy).
  apply elem_of_cons. by left.
Qed.

Lemma split_after y :
  y ∈ post -> MultiEventEdge.gridOrd (snd x) <= MultiEventEdge.gridOrd (snd y).
Proof.
  intros Hy. apply compareRef_le_ord.
  unfold sortedEdges in Hsorted. rewrite Hsplit in Hsorted.
  apply StronglySorted_app_1_r in Hsorted.
  apply StronglySorted_cons in Hsorted as [Hall _].
  rewrite Forall_forall in Hall. by apply Hall.
Qed.

Lemma split_elem y : y ∈ order <-> y ∈ pre \/ y = x \/ y ∈ post.
Proof. rewrite Hsplit, elem_of_app, elem_of_cons. tauto. Qed.

(** The open edge of a close edge comes before it. *)
Lemma open_first p :
  MultiEventEdge.prev (snd x) = Some p -> opensIn pre p.
Proof.
  intros Hp.
  assert (Hx : x ∈ refs) by (apply order_refs, split_elem; auto).
  destruct (wl_prev _ Hlinked x p Hx Hp) as (o & Ho & Hopen & Hlt).
  apply order_refs, split_elem in Ho as [Ho|[Ho|Ho]].
  - exists o. done.
  - subst x. simpl in *. congruence.
  - apply split_after in Ho. simpl in Ho. lia.
Qed.

(** The close edge being gone through is the first one for its link. *)
Lemma not_closed_yet p :
  MultiEventEdge.prev (snd x) = Some p -> ~ closedIn pre p.
Proof.
  intros Hp (c & Hc & Hcp).
  assert (c = x).
  { apply (wl_unique _ Hlinked c x p); auto.
    - apply order_refs, split_elem; auto.
    - apply order_refs, split_elem; auto. }
  subst c. apply split_fresh. apply list_elem_of_fmap. by exists x.
Qed.

End Split.

(** An open edge being gone through has not been closed before. *)
Lemma open_not_closed pre x post :
  order = pre ++ x :: post -> ~ closedIn pre (fst x).
Proof.
  intros Hsplit (c & Hc & Hcp).
  apply list_elem_of_split in Hc as (pre1 & pre2 & ->).
  assert (Hsplit' : order = pre1 ++ c :: (pre2 ++ x :: post)).
  { rewrite Hsplit, <- app_assoc. reflexivity. }
  destruct (open_first _ _ _ Hsplit' _ Hcp) as (o & Ho & _).
  apply (split_fresh _ _ _ Hsplit).
  apply list_elem_of_fmap. exists (fst x, o). split; [done|].
  apply elem_of_app. by left.
Qed.

Lemma opensIn_snoc pre x o :
  opensIn (pre ++ [x]) o
  <-> opensIn pre o \/ (fst x = o /\ MultiEventEdge.prev (snd x) = None).
Proof.
  unfold opensIn. split.
  - intros (e & He & Hopen). apply elem_of_app in He as [He|He].
    + left. by exists e.
    + apply list_elem_of_singleton in He. subst x. right. done.
  - intros [(e & He & Hopen)|[<- Hopen]].
    + exists e. split; [|done]. apply elem_of_app. by left.
    + exists (snd x). split; [|done]. apply elem_of_app. right.
      apply list_elem_of_singleton. by destruct x.
Qed.

Lemma closedIn_snoc pre x o :
  closedIn (pre ++ [x]) o
  <-> closedIn pre o \/ MultiEventEdge.prev (snd x) = Some o.
Proof.
  unfold closedIn. split.
  - intros (c & Hc & Hcp). apply elem_of_app in Hc as [Hc|Hc].
    + left. by exists c.
    + apply list_elem_of_singleton in Hc. subst c. by right.
  - intros [(c & Hc & Hcp)|Hx].
    + exists c. split; [|done]. apply elem_of_app. by left.
    + exists x. split; [|done]. apply elem_of_app. right.
      by apply list_elem_of_singleton.
Qed.

Lemma inv_empty : SweepInv [] emptySweep.
Proof.
  split; simpl.
  - intros o. rewrite lookup_empty. split.
    + intros [? ?]. done.
    + intros (e & He & _). by apply elem_of_nil in He.
  - intros l. split; [done|]. intros (o & Ho & _). by rewrite lookup_empty in Ho.
  - intros o o' l Ho. by rewrite lookup_empty in Ho.
  - done.
Qed.

Lemma inv_step pre x post st :
  order = pre ++ x :: post -> SweepInv pre st ->
  SweepInv (pre ++ [x]) (placeEdge st x).
Proof.
  intros Hsplit [Hplaced Hplaces Hdistinct Hlast].
  unfold placeEdge. destruct (MultiEventEdge.prev (snd x)) as [p|] eqn:Hp.
  - (* a close edge *)
    pose proof (open_first _ _ _ Hsplit _ Hp) as Hopen.
    pose proof (not_closed_yet _ _ _ Hsplit _ Hp) as Hnot.
    apply Hplaced in Hopen as [l Hl]. rewrite Hl.
    split; simpl.
    + intros o. rewrite Hplaced, opensIn_snoc. split; [auto|].
      intros [?|[_ ?]]; [done|congruence].
    + intros k. rewrite lookup_popHoles, lookup_vacate, Hplaces. split.
      * intros [Hk (o & Ho & Hclosed)]. exists o. split; [done|].
        rewrite closedIn_snoc. intros [?|Hxo]; [done|].
        rewrite Hp in Hxo. injection Hxo as ->. congruence.
      * intros (o & Ho & Hclosed). rewrite closedIn_snoc in Hclosed.
        split; [|exists o; split; [done|tauto]].
        intros ->. assert (o = p) as ->.
        { apply (Hdistinct o p l); auto. }
        apply Hclosed. by right.
    + intros o o' k Ho Ho'. rewrite !closedIn_snoc. intros Hc Hc'.
      apply (Hdistinct o o' k); tauto.
    + apply last_popHoles.
  - (* an open edge *)
    pose proof (open_not_closed _ _ _ Hsplit) as Hnot.
    pose proof (split_fresh _ _ _ Hsplit) as Hfresh.
    assert (Hnone : placeOf st !! x.1 = None).
    { destruct (placeOf st !! x.1) eqn:E; [|done].
      assert (Hs : is_Some (placeOf st !! x.1)) by (rewrite E; eauto).
      apply Hplaced in Hs as (e & He & _).
      exfalso. apply Hfresh. apply list_elem_of_fmap. by exists (x.1, e). }
    pose proof (firstFree_le (places st)) as Hle.
    pose proof (firstFree_free (places st)) as Hfree.
    assert (Hsame : forall o, closedIn (pre ++ [x]) o <-> closedIn pre o).
    { intros o. rewrite closedIn_snoc. split; [|auto].
      intros [?|?]; [done|congruence]. }
    split; simpl.
    + intros o. rewrite opensIn_snoc, <- Hplaced.
      destruct (decide (x.1 = o)) as [<-|Hne].
      * rewrite lookup_insert_eq. split; [auto|eauto].
      * rewrite lookup_insert_ne by done. split; [auto|].
        intros [?|[? _]]; [done|congruence].
    + intros k. rewrite lookup_occupy by done. rewrite Hplaces. split.
      * intros [->|(o & Ho & Hclosed)].
        -- exists x.1. rewrite lookup_insert_eq. split; [done|].
           by rewrite Hsame.
        -- exists o. rewrite Hsame. split; [|done].
           rewrite lookup_insert_ne; [done|]. intros <-. congruence.
      * intros (o & Ho & Hclosed). rewrite Hsame in Hclosed.
        destruct (decide (x.1 = o)) as [<-|Hne].
        -- rewrite lookup_insert_eq in Ho. injection Ho as <-. by left.
        -- rewrite lookup_insert_ne in Ho by done. right. eauto.
    + intros o o' k Ho Ho'. rewrite !Hsame. intros Hc Hc'.
      destruct (decide (x.1 = o)) as [<-|Hne];
        destruct (decide (x.1 = o')) as [<-|Hne']; [done| | |].
      * rewrite lookup_insert_eq in Ho. injection Ho as <-.
        rewrite lookup_insert_ne in Ho' by done.
        exfalso. apply Hfree. apply Hplaces. eauto.
      * rewrite lookup_insert_eq in Ho'. injection Ho' as <-.
        rewrite lookup_insert_ne in Ho by done.
        exfalso. apply Hfree. apply Hplaces. eauto.
      * rewrite lookup_insert_ne in Ho, Ho' by done.
        apply (Hdistinct o o' k); auto.
    + by apply last_occupy.
Qed.

Lemma sweepFrom_app st pre post :
  sweepFrom st (pre ++ post) = sweepFrom (sweepFrom st pre) post.
Proof. unfold sweepFrom. by rewrite fold_left_app. Qed.

Lemma sweepFrom_snoc st pre x :
  sweepFrom st (pre ++ [x]) = placeEdge (sweepFrom st pre) x.
Proof. unfold sweepFrom. by rewrite fold_left_app. Qed.

(** The invariant holds after every part of the sorted array. *)
Lemma inv_prefix pre : forall post,
  order = pre ++ post -> SweepInv pre (sweepFrom emptySweep pre).
Proof.
  induction pre as [|x pre IH] using rev_ind; intros post Hsplit.
  - apply inv_empty.
  - rewrite sweepFrom_snoc. rewrite <- app_assoc in Hsplit.
    apply (inv_step pre x post); [exact Hsplit|]. by apply (IH (x :: post)).
Qed.

(** A lane, once written, is not written again. *)
Lemma placeOf_kept post : forall st o,
  o ∉ post.*1 -> placeOf (sweepFrom st post) !! o = placeOf st !! o.
Proof.
  induction post as [|x post IH]; intros st o Ho; [done|].
  simpl in *. apply not_elem_of_cons in Ho as [Hne Ho].
  unfold sweepFrom in *. simpl. rewrite IH by done.
  unfold placeEdge. destruct (MultiEventEdge.prev (snd x)).
  - by destruct (placeOf st !! n).
  - simpl. by rewrite lookup_insert_ne.
Qed.

Lemma placeOf_final pre post o :
  order = pre ++ post -> o ∈ pre.*1 ->
  placeOf (placeMultiEdges order) !! o
  = placeOf (sweepFrom emptySweep pre) !! o.
Proof.
  intros Hsplit Ho. unfold placeMultiEdges, sweepFrom.
  rewrite Hsplit, fold_left_app. apply placeOf_kept.
  pose proof order_nodup as Hnd. rewrite Hsplit, fmap_app in Hnd.
  apply NoDup_app in Hnd as (_ & Hdis & _). by apply Hdis.
Qed.

(** The lanes occupied at a point of the sweep are the set entries of the
    array of lanes. *)
Lemma occupied_places pre post l :
  order = pre ++ post ->
  occupied (placeOf (placeMultiEdges order)) pre l
  <-> places (sweepFrom emptySweep pre) !! l = Some true.
Proof.
  intros Hsplit. pose proof (inv_prefix pre post Hsplit) as Hinv.
  rewrite (inv_places _ _ Hinv). unfold occupied, openAt. split.
  - intros (o & [Hopen Hclosed] & Ho). exists o. split; [|done].
    rewrite <- Ho. symmetry. apply (placeOf_final pre post); [done|].
    destruct Hopen as (e & He & _). apply list_elem_of_fmap. by exists (o, e).
  - intros (o & Ho & Hclosed).
    assert (Hopen : opensIn pre o).
    { apply (inv_placed _ _ Hinv). rewrite Ho. eauto. }
    exists o. split; [done|]. rewrite <- Ho.
    apply (placeOf_final pre post); [done|].
    destruct Hopen as (e & He & _). apply list_elem_of_fmap. by exists (o, e).
Qed.

(** The lane given to an open edge. *)
Lemma lane_of_open pre x post :
  order = pre ++ x :: post -> MultiEventEdge.prev (snd x) = None ->
  placeOf (placeMultiEdges order) !! x.1
  = Some (firstFree (places (sweepFrom emptySweep pre))).
Proof.
  intros Hsplit Hopen.
  assert (Hsplit' : order = (pre ++ [x]) ++ post).
  { rewrite Hsplit, <- app_assoc. reflexivity. }
  rewrite (placeOf_final (pre ++ [x]) post); [|done|].
  - rewrite sweepFrom_snoc. unfold placeEdge. rewrite Hopen. simpl.
    apply lookup_insert_eq.
  - rewrite fmap_app. apply elem_of_app. right. simpl.
    apply list_elem_of_singleton. reflexivity.
Qed.

(** The link of a close edge leads to an open edge. *)
Lemma linked_open c a oa :
  c ∈ order -> MultiEventEdge.prev (snd c) = Some a -> (a, oa) ∈ order ->
  MultiEventEdge.prev oa = None.
Proof.
  intros Hc Hca Ha. apply order_refs in Hc.
  destruct (wl_prev _ Hlinked c a Hc Hca) as (o & Ho & Hopen & _).
  apply order_refs in Ha.
  by rewrite (same_identity refs a oa o (wl_nodup _ Hlinked) Ha Ho).
Qed.

(** Of two segments, the one opened later finds the lane of the other set
    when the other is closed at a later ordinal. *)
Lemma lanes_differ_ordered pre x post a oa ca :
  order = pre ++ x :: post -> MultiEventEdge.prev (snd x) = None ->
  (a, oa) ∈ pre -> ca ∈ order -> MultiEventEdge.prev (snd ca) = Some a ->
  MultiEventEdge.gridOrd (snd x) < MultiEventEdge.gridOrd (snd ca) ->
  exists la lb,
    placeOf (placeMultiEdges order) !! a = Some la
    /\ placeOf (placeMultiEdges order) !! x.1 = Some lb
    /\ la <> lb.
Proof.
  intros Hsplit Hx Ha Hca Hprev Hlt.
  assert (Hain : (a, oa) ∈ order).
  { apply (split_elem _ _ _ Hsplit). by left. }
  pose proof (linked_open ca a oa Hca Hprev Hain) as Hoa.
  assert (Hnot : ~ closedIn pre a).
  { intros (c & Hc & Hcp).
    assert (c = ca) as ->.
    { apply (wl_unique _ Hlinked c ca a); auto; apply order_refs; auto.
      apply (split_elem _ _ _ Hsplit). by left. }
    pose proof (split_before _ _ _ Hsplit ca Hc). lia. }
  pose proof (inv_prefix pre (x :: post) Hsplit) as Hinv.
  assert (Hopen : opensIn pre a) by (by exists oa).
  apply (inv_placed _ _ Hinv) in Hopen as [la Hla].
  exists la, (firstFree (places (sweepFrom emptySweep pre))).
  split; [|split].
  - rewrite (placeOf_final pre (x :: post)); [done|done|].
    apply list_elem_of_fmap. by exists (a, oa).
  - by apply (lane_of_open pre x post).
  - intros ->.
    apply (firstFree_free (places (sweepFrom emptySweep pre))).
    apply (inv_places _ _ Hinv). eauto.
Qed.

Lemma lanes_differ a oa ca b ob cb :
  (a, oa) ∈ order -> ca ∈ order -> MultiEventEdge.prev (snd ca) = Some a ->
  (b, ob) ∈ order -> cb ∈ order -> MultiEventEdge.prev (snd cb) = Some b ->
  a <> b ->
  MultiEventEdge.gridOrd oa < MultiEventEdge.gridOrd (snd cb) ->
  MultiEventEdge.gridOrd ob < MultiEventEdge.gridOrd (snd ca) ->
  exists la lb,
    placeOf (placeMultiEdges order) !! a = Some la
    /\ placeOf (placeMultiEdges order) !! b = Some lb
    /\ la <> lb.
Proof.
  intros Ha Hca Hpa Hb Hcb Hpb Hne Hab Hba.
  pose proof (linked_open ca a oa Hca Hpa Ha) as Hoa.
  pose proof (linked_open cb b ob Hcb Hpb Hb) as Hob.
  destruct (list_elem_of_split _ _ Hb) as (pre & post & Hsplit).
  apply (split_elem _ _ _ Hsplit) in Ha as Ha'.
  destruct Ha' as [Hin|[Heq|Hin]].
  - apply (lanes_differ_ordered pre (b, ob) post a oa ca); auto.
  - congruence.
  - destruct (list_elem_of_split _ _ Hin) as (post1 & post2 & ->).
    assert (Hsplit' : order = (pre ++ (b, ob) :: post1) ++ (a, oa) :: post2).
    { rewrite Hsplit, <- app_assoc. reflexivity. }
    destruct (lanes_differ_ordered _ (a, oa) post2 b ob cb Hsplit')
      as (lb & la & Hlb & Hla & Hdiff); auto.
    + apply elem_of_app. right. apply elem_of_cons. by left.
    + exists la, lb. auto.
Qed.

(** The lane given to an open edge is the lowest lane that is not occupied
    when the sweep reaches the edge. *)
Lemma lane_lowest_free pre x post :
  order = pre ++ x :: post -> MultiEventEdge.prev (snd x) = None ->
  exists lane,
    placeOf (placeMultiEdges order) !! x.1 = Some lane
    /\ ~ occupied (placeOf (placeMultiEdges order)) pre lane
    /\ forall k, (k < lane)%nat ->
         occupied (placeOf (placeMultiEdges order)) pre k.
Proof.
  intros Hsplit Hx.
  exists (firstFree (places (sweepFrom emptySweep pre))).
  split; [by apply (lane_of_open pre x post)|]. split.
  - rewrite (occupied_places pre (x :: post)) by done. apply firstFree_free.
  - intros k Hk. rewrite (occupied_places pre (x :: post)) by done.
    by apply firstFree_below.
Qed.

(** What the sweep records when it has gone through an edge. *)
Lemma recorded_space pre x post :
  order = pre ++ x :: post ->
  allocatedSpace (sweepFrom emptySweep (pre ++ [x]))
    !! MultiEventEdge.gridOrd (snd x)
  = Some (length (places (sweepFrom emptySweep (pre ++ [x])))).
Proof.
  intros Hsplit. rewrite sweepFrom_snoc. unfold placeEdge.
  destruct (MultiEventEdge.prev (snd x)) as [p|] eqn:Hp.
  - pose proof (open_first _ _ _ Hsplit _ Hp) as Hopen.
    apply (inv_placed _ _ (inv_prefix pre (x :: post) Hsplit)) in Hopen as [l Hl].
    rewrite Hl. simpl. apply lookup_insert_eq.
  - simpl. apply lookup_insert_eq.
Qed.

End Sweep.

(** A record of the sweep stays until an edge at the same ordinal is gone
    through. *)
Lemma allocatedSpace_kept {H : Host} (post : list (nat * Edge)) : forall st g,
  Forall (fun y => MultiEventEdge.gridOrd (snd y) <> g) post ->
  allocatedSpace (sweepFrom st post) !! g = allocatedSpace st !! g.
Proof.
  induction post as [|x post IH]; intros st g Hall; [done|].
  apply Forall_cons in Hall as [Hx Hall].
  unfold sweepFrom in *. simpl. rewrite IH by done.
  unfold placeEdge. destruct (MultiEventEdge.prev (snd x)).
  - destruct (placeOf st !! n); [|done]. simpl. by rewrite lookup_insert_ne.
  - simpl. by rewrite lookup_insert_ne.
Qed.

(** ** The array of the decomposer is well linked *)

Section Linked.
Context {H : Host}.
Variable this : CalendarRenderer.

Lemma elem_withIdentity (arena : list Edge) i e :
  (i, e) ∈ withIdentity arena <-> arena !! i = Some e.
Proof.
  unfold withIdentity. split.
  - intros Hin. apply elem_of_lookup_imap_1 in Hin as (j & y & Heq & Hj).
    by injection Heq as -> ->.
  - intros Hi. by apply (elem_of_lookup_imap_2 (fun i e => (i, e))).
Qed.

Lemma withIdentity_fst (arena : list Edge) :
  (withIdentity arena).*1 = seq 0 (length arena).
Proof.
  unfold withIdentity. apply list_eq. intros i.
  rewrite list_lookup_fmap, list_lookup_imap.
  destruct (arena !! i) as [e|] eqn:E; simpl.
  - symmetry. apply lookup_seq. split; [done|]. by apply lookup_lt_Some in E.
  - symmetry. apply lookup_seq_ge. by apply lookup_ge_None.
Qed.

Lemma lookup_edgesOf segs : forall k j e,
  edgesOf k segs !! j = Some e <->
  exists i s, segs !! i = Some s
    /\ ((j = (2 * i)%nat
         /\ e = MultiEventEdge.mk (seg_open s) (seg_event s) None (seg_definiteStart s))
        \/ (j = S (2 * i)
            /\ e = MultiEventEdge.mk (seg_close s) (seg_event s)
                     (Some (k + 2 * i)%nat) (seg_definiteEnd s))).
Proof.
  induction segs as [|s segs IH]; intros k j e; simpl.
  - split; [done|]. intros (i & s & Hs & _). done.
  - destruct j as [|[|j]]; simpl.
    + split.
      * intros [= <-]. exists 0%nat, s. split; [done|]. by left.
      * intros (i & s' & Hs & [[Hj ->]|[Hj _]]); [|lia].
        assert (i = 0%nat) as -> by lia. simpl in Hs. by injection Hs as ->.
    + split.
      * intros [= <-]. exists 0%nat, s. split; [done|]. right.
        split; [done|]. do 2 f_equal. lia.
      * intros (i & s' & Hs & [[Hj _]|[Hj ->]]); [lia|].
        assert (i = 0%nat) as -> by lia. simpl in Hs. injection Hs as ->.
        do 3 f_equal. lia.
    + rewrite IH. split.
      * intros (i & s' & Hs & Hcase). exists (S i), s'. split; [done|].
        destruct Hcase as [[-> ->]|[-> ->]]; [left|right]; split; try lia; try done.
        do 2 f_equal. lia.
      * intros (i & s' & Hs & Hcase).
        destruct i as [|i]; [destruct Hcase as [[? _]|[? _]]; lia|].
        simpl in Hs. exists i, s'. split; [done|].
        destruct Hcase as [[Hj ->]|[Hj ->]]; [left|right]; split; try lia; try done.
        do 2 f_equal. lia.
Qed.

Lemma edgesOf_linked (segs : list Segment) :
  Forall (fun s => seg_open s < seg_close s) segs ->
  WellLinked (withIdentity (edgesOf 0 segs)).
Proof.
  intros Hpos. rewrite Forall_lookup in Hpos. split.
  - rewrite withIdentity_fst. apply NoDup_seq.
  - intros [j c] p Hx Hp. simpl in Hp.
    apply elem_withIdentity, lookup_edgesOf in Hx
      as (i & s & Hs & [[_ ->]|[_ ->]]); simpl in Hp; [done|].
    injection Hp as <-.
    exists (MultiEventEdge.mk (seg_open s) (seg_event s) None (seg_definiteStart s)).
    split; [|split; [done|]].
    + apply elem_withIdentity, lookup_edgesOf. exists i, s. split; [done|].
      left. split; [lia|done].
    + simpl. by apply (Hpos i).
  - intros [j c] [j' c'] p Hx Hy Hp Hp'. simpl in *.
    apply elem_withIdentity, lookup_edgesOf in Hx
      as (i & s & Hs & [[_ ->]|[-> ->]]); simpl in Hp; [done|].
    apply elem_withIdentity, lookup_edgesOf in Hy
      as (i' & s' & Hs' & [[_ ->]|[-> ->]]); simpl in Hp'; [done|].
    assert (i = i') as <- by (simplify_eq; lia).
    by simplify_eq.
Qed.

Lemma rows_positive fuel : forall e lo definite g end_,
  lo < g -> lo < end_ ->
  Forall (fun s => seg_open s < seg_close s) (rows fuel e lo definite g end_).
Proof.
  induction fuel as [|fuel IH]; intros e lo definite g end_ Hg Hend; simpl.
  - repeat constructor. done.
  - destruct (Z.ltb_spec g end_).
    + constructor; [done|]. apply IH; lia.
    + repeat constructor. done.
Qed.

Lemma decomposed_linked (events : list Event) :
  Forall (fun e => 0 < multiLength e) events ->
  WellLinked (withIdentity (decomposeMultiEdges this events)).
Proof.
  intros Hpos. rewrite decomposeMultiEdges_rows. apply edgesOf_linked.
  induction Hpos as [|e events He _ IH]; simpl; [constructor|].
  apply Forall_app. split; [|exact IH].
  unfold rowSegments. apply rows_positive; [apply followingSunday_after|lia].
Qed.

End Linked.

(** ** The sort of the host *)

Section Sort.
Context {A : Type} (cmp : A -> A -> Z).

Lemma insert_perm x l : Array.insert cmp x l ≡ₚ x :: l.
Proof.
  induction l as [|y l IH]; simpl; [done|].
  destruct (cmp x y <=? 0); [done|]. rewrite IH. apply Permutation_swap.
Qed.

Lemma sort_perm l : Array.sort cmp l ≡ₚ l.
Proof.
  induction l as [|x l IH]; simpl; [done|]. by rewrite insert_perm, IH.
Qed.

End Sort.

Lemma sortedb_sorted {A} (cmp : A -> A -> Z) (l : list A) :
  sortedb cmp l = true -> StronglySorted (fun x y => cmp x y <= 0) l.
Proof.
  induction l as [|x l IH]; simpl; intros Hs; [constructor|].
  apply andb_true_iff in Hs as [Hx Hl]. constructor; [auto|].
  rewrite forallb_forall in Hx. apply Forall_forall. intros y Hy.
  apply Z.leb_le, Hx. by apply list_elem_of_In.
Qed.

(** ** The allocator on the array of the decomposer *)

(** C2. In the sweep of [placeMultiEdges] over the edges of any events of
    positive [multiLength()], put in the order of the comparator: every open
    edge receives the lowest lane that is not occupied when the sweep reaches
    it, and two distinct segments whose ranges of ordinals, from the open
    edge up to the close edge, overlap receive different lanes. *)
Theorem placeMultiEdges_lowest_free_lane (H : Host) (this : CalendarRenderer)
    (events : list Event) (order : list (nat * Edge)) :
  Forall (fun e => 0 < multiLength e) events ->
  order ≡ₚ withIdentity (decomposeMultiEdges this events) ->
  sortedEdges order ->
  (forall pre x post,
     order = pre ++ x :: post -> MultiEventEdge.prev (snd x) = None ->
     exists lane,
       placeOf (placeMultiEdges order) !! x.1 = Some lane
       /\ ~ occupied (placeOf (placeMultiEdges order)) pre lane
       /\ forall k, (k < lane)%nat ->
            occupied (placeOf (placeMultiEdges order)) pre k)
  /\ (forall a oa ca b ob cb,
        (a, oa) ∈ order -> ca ∈ order ->
        MultiEventEdge.prev (snd ca) = Some a ->
        (b, ob) ∈ order -> cb ∈ order ->
        MultiEventEdge.prev (snd cb) = Some b ->
        a <> b ->
        MultiEventEdge.gridOrd oa < MultiEventEdge.gridOrd (snd cb) ->
        MultiEventEdge.gridOrd ob < MultiEventEdge.gridOrd (snd ca) ->
        exists la lb,
          placeOf (placeMultiEdges order) !! a = Some la
          /\ placeOf (placeMultiEdges order) !! b = Some lb
          /\ la <> lb).
Proof.
  intros Hpos Hperm Hsorted.
  pose proof (decomposed_linked this events Hpos) as Hlinked.
  split.
  - intros pre x post. by apply (lane_lowest_free _ order Hlinked Hperm Hsorted).
  - intros a oa ca b ob cb. by apply (lanes_differ _ order Hlinked Hperm Hsorted).
Qed.

Lemma threeEvents_positive :
  Forall (fun e => 0 < multiLength (H := Iso.host) e) threeEvents.
Proof. repeat constructor. Qed.

Lemma threeSorted_perm :
  threeSorted
  ≡ₚ withIdentity (decomposeMultiEdges (H := Iso.host) grid2025 threeEvents).
Proof. apply sort_perm. Qed.

Lemma threeSorted_sorted : sortedEdges (H := Iso.host) threeSorted.
Proof. apply sortedb_sorted. vm_compute. reflexivity. Qed.

Lemma placeMultiEdges_lowest_free_lane_witness :
  Forall (fun e => 0 < multiLength (H := Iso.host) e) threeEvents
  /\ sortedEdges (H := Iso.host) threeSorted
  /\ exists x lane,
       threeSorted !! 2%nat = Some x
       /\ MultiEventEdge.prev (snd x) = None
       /\ placeOf (placeMultiEdges threeSorted) !! x.1 = Some lane
       /\ ~ occupied (placeOf (placeMultiEdges threeSorted)) (take 2 threeSorted) lane
       /\ forall k, (k < lane)%nat ->
            occupied (placeOf (placeMultiEdges threeSorted)) (take 2 threeSorted) k.
Proof.
  split; [exact threeEvents_positive|]. split; [exact threeSorted_sorted|].
  destruct (placeMultiEdges_lowest_free_lane Iso.host grid2025 threeEvents
              threeSorted threeEvents_positive threeSorted_perm
              threeSorted_sorted) as [Hlow _].
  destruct (threeSorted !! 2%nat) as [x|] eqn:Hx; [|vm_compute in Hx; discriminate].
  destruct (Hlow (take 2 threeSorted) x (drop 3 threeSorted)) as (lane & Hlane).
  - rewrite <- (take_drop 2 threeSorted) at 1. f_equal.
    rewrite (drop_S _ x 2 Hx). reflexivity.
  - vm_compute in Hx. injection Hx as <-. reflexivity.
  - exists x, lane. split; [reflexivity|]. split; [|exact Hlane].
    vm_compute in Hx. injection Hx as <-. reflexivity.
Defined.

(** C3, as stated, fails on three date events A (ordinals 7 to 8), B (7 to
    9) and C (8 to 11): B, A and C receive the lanes 0, 1 and 2; when the
    sweep has gone through the close edge of B at ordinal 10, the lanes 0
    and 1 are holes and only lane 2 is occupied; the value recorded at
    ordinal 10 is 3, while one lane is occupied and one segment covers the
    ordinal. *)
Lemma placeMultiEdges_records_watermark :
  (exists x, threeSorted !! 4%nat = Some x /\ MultiEventEdge.gridOrd (snd x) = 10)
  /\ places (sweepFrom emptySweep (take 5 threeSorted)) = [false; false; true]
  /\ allocatedSpace (sweepFrom emptySweep (take 5 threeSorted)) !! 10 = Some 3%nat
  /\ allocatedSpace (placeMultiEdges threeSorted) !! 10 = Some 3%nat
  /\ occupiedCount (places (sweepFrom emptySweep (take 5 threeSorted))) = 1%nat
  /\ overlapCount
       (segmentsOf (decomposeMultiEdges (H := Iso.host) grid2025 threeEvents)
          (decomposeMultiEdges (H := Iso.host) grid2025 threeEvents)) 10
     = 1%nat.
Proof.
  split; [eexists; split; vm_compute; reflexivity|].
  repeat split; vm_compute; reflexivity.
Qed.

(** C3, amended. In the sweep of [placeMultiEdges] over the edges of any
    events of positive [multiLength()], put in the order of the comparator:
    when the sweep has gone through an edge, the value recorded at the
    ordinal of the edge is the length of the array of lanes at that point,
    which is 0 when no lane is occupied and otherwise one more than the highest
    occupied lane; the number of occupied lanes is at most that value; and
    the value is the one [placeMultiEdges] returns for that ordinal when no
    later edge lies at the same ordinal. *)
Theorem placeMultiEdges_records_length (H : Host) (this : CalendarRenderer)
    (events : list Event) (order : list (nat * Edge)) :
  Forall (fun e => 0 < multiLength e) events ->
  order ≡ₚ withIdentity (decomposeMultiEdges this events) ->
  sortedEdges order ->
  forall pre x post, order = pre ++ x :: post ->
    allocatedSpace (sweepFrom emptySweep (pre ++ [x]))
      !! MultiEventEdge.gridOrd (snd x)
    = Some (length (places (sweepFrom emptySweep (pre ++ [x]))))
    /\ ((length (places (sweepFrom emptySweep (pre ++ [x]))) = 0%nat
         /\ forall l, ~ occupied (placeOf (placeMultiEdges order)) (pre ++ [x]) l)
        \/ (exists top,
              length (places (sweepFrom emptySweep (pre ++ [x]))) = S top
              /\ occupied (placeOf (placeMultiEdges order)) (pre ++ [x]) top
              /\ forall l,
                   occupied (placeOf (placeMultiEdges order)) (pre ++ [x]) l ->
                   (l <= top)%nat))
    /\ (occupiedCount (places (sweepFrom emptySweep (pre ++ [x])))
        <= length (places (sweepFrom emptySweep (pre ++ [x]))))%nat
    /\ (Forall (fun y => MultiEventEdge.gridOrd (snd y)
                         <> MultiEventEdge.gridOrd (snd x)) post ->
        allocatedSpace (placeMultiEdges order) !! MultiEventEdge.gridOrd (snd x)
        = Some (length (places (sweepFrom emptySweep (pre ++ [x]))))).
Proof.
  intros Hpos Hperm Hsorted pre x post Hsplit.
  pose proof (decomposed_linked this events Hpos) as Hlinked.
  assert (Hsplit' : order = (pre ++ [x]) ++ post).
  { rewrite Hsplit, <- app_assoc. reflexivity. }
  pose proof (recorded_space _ order Hlinked Hperm Hsorted pre x post Hsplit)
    as Hrec.
  pose proof (inv_prefix _ order Hlinked Hperm Hsorted (pre ++ [x]) post Hsplit')
    as Hinv.
  split; [exact Hrec|]. split; [|split].
  - destruct (length_highest _ (inv_last _ _ Hinv))
      as [[Hlen Hnone]|(top & Hlen & Htop & Hmax)].
    + left. split; [exact Hlen|]. intros l.
      rewrite (occupied_places _ order Hlinked Hperm Hsorted (pre ++ [x]) post)
        by done.
      apply Hnone.
    + right. exists top. split; [exact Hlen|]. split.
      * by rewrite (occupied_places _ order Hlinked Hperm Hsorted (pre ++ [x]) post).
      * intros l.
        rewrite (occupied_places _ order Hlinked Hperm Hsorted (pre ++ [x]) post)
          by done.
        apply Hmax.
  - unfold occupiedCount. apply length_filter.
  - intros Hlater. unfold placeMultiEdges.
    rewrite Hsplit' at 1. rewrite sweepFrom_app.
    rewrite (allocatedSpace_kept post _ _ Hlater). exact Hrec.
Qed.

Lemma placeMultiEdges_records_length_witness :
  Forall (fun e => 0 < multiLength (H := Iso.host) e) threeEvents
  /\ sortedEdges (H := Iso.host) threeSorted
  /\ exists x,
       threeSorted !! 4%nat = Some x
       /\ allocatedSpace (sweepFrom emptySweep (take 4 threeSorted ++ [x]))
            !! MultiEventEdge.gridOrd (snd x)
          = Some (length (places (sweepFrom emptySweep (take 4 threeSorted ++ [x])))).
Proof.
  split; [exact threeEvents_positive|]. split; [exact threeSorted_sorted|].
  destruct (threeSorted !! 4%nat) as [x|] eqn:Hx; [|vm_compute in Hx; discriminate].
  exists x. split; [reflexivity|].
  apply (placeMultiEdges_records_length Iso.host grid2025 threeEvents
           threeSorted threeEvents_positive threeSorted_perm threeSorted_sorted
           (take 4 threeSorted) x (drop 5 threeSorted)).
  rewrite <- (take_drop 4 threeSorted) at 1. f_equal.
  rewrite (drop_S _ x 4 Hx). reflexivity.
Defined.

(** ** The stack of the day cells *)

Section DayCells.
Context {H : Host}.
Variable this : CalendarRenderer.




(** The loop of [renderDay] pops events that start on the date, appends their
    boxes in the order popped, and with enough turns stops on an empty stack
    or on a top that starts on another date. *)
Lemma popStarting_spec fuel date : forall stack content,
  exists popped rest,
    popStarting fuel date stack content = (content ++ map EventDiv popped, rest)
    /\ stack = rest ++ reverse popped
    /\ Forall (fun e => startDate e = date) popped
    /\ ((length stack <= fuel)%nat ->
        forall e, last rest = Some e -> startDate e <> date).
Proof.
  induction fuel as [|fuel IH]; intros stack content; simpl.
  - exists [], stack. rewrite !app_nil_r. repeat split; [constructor|].
    intros Hlen e He. destruct stack; [done|simpl in Hlen; lia].
  - unfold Array.at_last, Array.pop.
    destruct (last stack) as [event|] eqn:Hlast.
    + destruct (Z.eqb_spec (startDate event) date) as [Heq|Hne].
      * apply last_Some in Hlast as [stack' ->].
        rewrite removelast_last.
        destruct (IH stack' (content ++ [EventDiv event]))
          as (popped & rest & Hrun & Hstack & Hall & Hexit).
        exists (event :: popped), rest. split; [|split; [|split]].
        -- rewrite Hrun, <- app_assoc. reflexivity.
        -- rewrite reverse_cons, app_assoc, <- Hstack. reflexivity.
        -- by constructor.
        -- intros Hlen. apply Hexit. rewrite length_app in Hlen. simpl in Hlen. lia.
      * exists [], stack. rewrite !app_nil_r. repeat split; [constructor|].
        intros _ e He. congruence.
    + exists [], stack. rewrite !app_nil_r. repeat split; [constructor|].
      intros _ e He. congruence.
Qed.




End DayCells.

(** ** Consistent comparators and the sort *)

Section Comparators.
Context {A : Type}.

Lemma consistent_zero (c : A -> A -> Z) a b :
  Consistent c -> c a b = 0 -> c b a = 0.
Proof.
  intros [Hswap _] Hz.
  pose proof (Hswap a b). pose proof (Hswap b a). lia.
Qed.

Lemma consistent_total (c : A -> A -> Z) a b :
  Consistent c -> c a b <= 0 \/ c b a <= 0.
Proof. intros [Hswap _]. pose proof (Hswap b a). lia. Qed.


Lemma consistent_opp (c : A -> A -> Z) :
  Consistent c -> Consistent (fun a b => - c a b).
Proof.
  intros [Hswap Htrans]. split.
  - intros a b. pose proof (Hswap a b). pose proof (Hswap b a). lia.
  - intros a b d Hab Hbd.
    pose proof (Hswap a b). pose proof (Hswap b a).
    pose proof (Hswap b d). pose proof (Hswap d b).
    pose proof (Hswap a d). pose proof (Hswap d a).
    pose proof (Htrans d b a). lia.
Qed.

Lemma consistent_on {B} (f : B -> A) (c : A -> A -> Z) :
  Consistent c -> Consistent (fun a b => c (f a) (f b)).
Proof. intros [Hswap Htrans]. split; eauto. Qed.

Lemma consistent_lex (c1 c2 : A -> A -> Z) :
  Consistent c1 -> Consistent c2 -> Consistent (lexCompare c1 c2).
Proof.
  intros [Hswap1 Htrans1] [Hswap2 Htrans2]. unfold lexCompare. split.
  - intros a b.
    pose proof (Hswap1 a b). pose proof (Hswap1 b a).
    pose proof (Hswap2 a b).
    destruct (Z.eqb_spec (c1 a b) 0), (Z.eqb_spec (c1 b a) 0); simpl; lia.
  - intros a b d.
    pose proof (Hswap1 a b). pose proof (Hswap1 b a).
    pose proof (Hswap1 b d). pose proof (Hswap1 d b).
    pose proof (Hswap1 a d). pose proof (Hswap1 d a).
    pose proof (Htrans1 a b d). pose proof (Htrans1 b d a).
    pose proof (Htrans1 d a b). pose proof (Htrans1 d b a).
    pose proof (Htrans2 a b d).
    destruct (Z.eqb_spec (c1 a b) 0), (Z.eqb_spec (c1 b d) 0),
      (Z.eqb_spec (c1 a d) 0); simpl; lia.
Qed.





End Comparators.

Lemma compare_consistent (H : Host) :
  HostLaws H -> Consistent compare.
Proof.
  intros Hlc.
  assert (Heq : compare
    = lexCompare (fun a b => localeCompare (startAt (data a)) (startAt (data b)))
        (lexCompare (fun a b => - localeCompare (endAt (data a)) (endAt (data b)))
           (fun a b => localeCompare (title (data a)) (title (data b))))).
  { reflexivity. }
  rewrite Heq. apply consistent_lex; [|apply consistent_lex].
  - apply (consistent_on (fun e => startAt (data e))), Hlc.
  - apply (consistent_opp (fun a b => localeCompare (endAt (data a)) (endAt (data b)))).
    apply (consistent_on (fun e => endAt (data e))), Hlc.
  - apply (consistent_on (fun e => title (data e))), Hlc.
Qed.

(** The comparison by code unit of the concrete host is consistent. *)
Lemma ascii_compare_lt (a b : ascii) :
  Ascii.compare a b = Lt <-> (N_of_ascii a < N_of_ascii b)%N.
Proof. unfold Ascii.compare. apply N.compare_lt_iff. Qed.

Lemma string_compare_trans : forall a b c : string,
  String.compare a b <> Gt -> String.compare b c <> Gt ->
  String.compare a c <> Gt.
Proof.
  induction a as [|x a IH]; intros [|y b] [|z c]; simpl; try done.
  destruct (Ascii.compare x y) eqn:Exy; [| |done];
    destruct (Ascii.compare y z) eqn:Eyz; try done.
  - apply Ascii.compare_eq_iff in Exy as ->. rewrite Eyz. apply IH.
  - apply Ascii.compare_eq_iff in Exy as ->. by rewrite Eyz.
  - apply Ascii.compare_eq_iff in Eyz as <-. by rewrite Exy.
  - apply ascii_compare_lt in Exy, Eyz.
    assert (Hxz : Ascii.compare x z = Lt).
    { apply ascii_compare_lt. by apply (N.lt_trans _ (N_of_ascii y)). }
    by rewrite Hxz.
Qed.

Lemma Iso_laws : HostLaws Iso.host.
Proof.
  split; simpl; unfold Iso.codeUnitCompare.
  - intros a b. rewrite (String.compare_antisym b a).
    destruct (String.compare a b); simpl; lia.
  - intros a b c Hab Hbc.
    pose proof (string_compare_trans a b c) as Ht.
    destruct (String.compare a b); try lia;
      destruct (String.compare b c); try lia;
      destruct (String.compare a c); try lia;
      exfalso; apply Ht; done.
Qed.

(** ** The render pass *)

Section RenderPass.
Context {H : Host}.
Variable this : CalendarRenderer.

Lemma classify_spec events : forall normal multi,
  Forall endsAgree events ->
  classify events normal multi
  = inr (normal ++ nonSpanning events, multi ++ spanning events).
Proof.
  unfold nonSpanning, spanning.
  induction events as [|d events IH]; intros normal multi Hall;
    cbn [classify flat_map].
  - by rewrite !app_nil_r.
  - apply Forall_cons in Hall as [Hd Hall]. unfold endsAgree in Hd.
    rewrite Hd, eqb_reflx. cbn [negb].
    destruct (Str.includes "T" (startAt d)).
    + destruct (0 <? multiLength (DateTimeEvent d)); rewrite IH by done;
        cbn [app]; by rewrite <- ?app_assoc.
    + rewrite IH by done. cbn [app]. by rewrite <- ?app_assoc.
Qed.





End RenderPass.







(** ** The sorted array of edges *)

Section SortedEdges.
Context {H : Host} {HL : HostLaws H}.

Lemma insert_sorted_on {A} (c : A -> A -> Z) x l :
  (forall a b, a ∈ x :: l -> b ∈ x :: l -> c a b <= 0 \/ c b a <= 0) ->
  (forall a b d, a ∈ x :: l -> b ∈ x :: l -> d ∈ x :: l ->
     c a b <= 0 -> c b d <= 0 -> c a d <= 0) ->
  StronglySorted (fun a b => c a b <= 0) l ->
  StronglySorted (fun a b => c a b <= 0) (Array.insert c x l).
Proof.
  intros Htotal Htrans Hl. induction Hl as [|y l Hl IH Hy]; simpl.
  - repeat constructor.
  - destruct (Z.leb_spec (c x y) 0) as [Hle|Hgt].
    + constructor; [by constructor|]. constructor; [done|].
      apply Forall_forall. intros z Hz. rewrite Forall_forall in Hy.
      apply (Htrans x y z); auto; rewrite !elem_of_cons; auto.
    + constructor.
      * apply IH.
        -- intros a b Ha Hb. apply elem_of_cons in Ha, Hb.
           apply Htotal; rewrite !elem_of_cons; tauto.
        -- intros a b d Ha Hb Hd. apply elem_of_cons in Ha, Hb, Hd.
           apply Htrans; rewrite !elem_of_cons; tauto.
      * rewrite (insert_perm c x l). constructor; [|done].
        destruct (Htotal x y); [rewrite !elem_of_cons; auto..|lia|done].
Qed.

Lemma sort_sorted_on {A} (c : A -> A -> Z) l :
  (forall a b, a ∈ l -> b ∈ l -> c a b <= 0 \/ c b a <= 0) ->
  (forall a b d, a ∈ l -> b ∈ l -> d ∈ l ->
     c a b <= 0 -> c b d <= 0 -> c a d <= 0) ->
  StronglySorted (fun a b => c a b <= 0) (Array.sort c l).
Proof.
  induction l as [|x l IH]; intros Htotal Htrans; simpl; [constructor|].
  apply insert_sorted_on.
  - intros a b. rewrite !elem_of_cons, !(sort_perm c l), <- !elem_of_cons.
    apply Htotal.
  - intros a b d. rewrite !elem_of_cons, !(sort_perm c l), <- !elem_of_cons.
    apply Htrans.
  - apply IH.
    + intros a b Ha Hb. apply Htotal; rewrite elem_of_cons; auto.
    + intros a b d Ha Hb Hd. apply Htrans; rewrite elem_of_cons; auto.
Qed.

Variable refs : list (nat * Edge).
Hypothesis Hlinked : WellLinked refs.

(** On a well-linked array the comparator puts first the smaller ordinal,
    then any close edge, then among open edges the indefinite one, then the
    event that [compare] puts first. *)
Lemma compareRef_le x y :
  x ∈ refs -> y ∈ refs ->
  compareRef x y <= 0 <->
  MultiEventEdge.gridOrd x.2 < MultiEventEdge.gridOrd y.2
  \/ (MultiEventEdge.gridOrd x.2 = MultiEventEdge.gridOrd y.2
      /\ (MultiEventEdge.prev x.2 <> None
          \/ (MultiEventEdge.prev x.2 = None /\ MultiEventEdge.prev y.2 = None
              /\ ((MultiEventEdge.definite x.2 = false
                   /\ MultiEventEdge.definite y.2 = true)
                  \/ (MultiEventEdge.definite x.2 = MultiEventEdge.definite y.2
                      /\ compare (MultiEventEdge.event x.2)
                           (MultiEventEdge.event y.2) <= 0))))).
Proof.
  intros Hx Hy. unfold compareRef, compareMultiEdge.
  destruct (Z.eqb_spec (MultiEventEdge.gridOrd x.2) (MultiEventEdge.gridOrd y.2))
    as [Hord|Hord]; cbn [negb].
  - destruct (MultiEventEdge.prev x.2) as [p|] eqn:Hp,
             (MultiEventEdge.prev y.2) as [q|] eqn:Hq.
    + case_bool_decide as Hpq; cbn [negb].
      * injection Hpq as <-.
        assert (x = y) as <- by (by apply (wl_unique _ Hlinked x y p)).
        rewrite eqb_reflx. cbn [negb].
        destruct (compare_consistent H HL) as [Hswap _].
        pose proof (Hswap (MultiEventEdge.event x.2) (MultiEventEdge.event x.2)).
        split; [intros _; right; split; [done|by left]|lia].
      * rewrite bool_decide_eq_true_2 by done.
        split; [intros _; right; split; [done|by left]|lia].
    + rewrite bool_decide_eq_false_2 by done. cbn [negb].
      rewrite bool_decide_eq_true_2 by done.
      split; [intros _; right; split; [done|by left]|lia].
    + rewrite bool_decide_eq_false_2 by done. cbn [negb].
      rewrite bool_decide_eq_false_2 by (intros Hn; by apply Hn).
      split; [lia|]. intros [?|[_ [?|(_ & ? & _)]]]; [lia|done|done].
    + rewrite bool_decide_eq_true_2 by done. cbn [negb].
      destruct (MultiEventEdge.definite x.2), (MultiEventEdge.definite y.2);
        cbn [Bool.eqb negb].
      * split; [intros ?; right; split; [done|]; right; auto|].
        intros [?|[_ [?|(_ & _ & [[? _]|[_ ?]])]]]; [lia|done|done|done].
      * split; [lia|].
        intros [?|[_ [?|(_ & _ & [[? _]|[? _]])]]]; [lia|done|done|done].
      * split; [intros _; right; split; [done|]; right; auto|lia].
      * split; [intros ?; right; split; [done|]; right; auto|].
        intros [?|[_ [?|(_ & _ & [[_ ?]|[_ ?]])]]]; [lia|done|done|done].
  - destruct (Z.ltb_spec (MultiEventEdge.gridOrd x.2) (MultiEventEdge.gridOrd y.2)).
    + split; [by left|lia].
    + split; [lia|]. intros [?|[? _]]; lia.
Qed.

Lemma sort_edges_sorted : sortedEdges (Array.sort compareRef refs).
Proof.
  destruct (compare_consistent H HL) as [Hswap Htrans].
  apply sort_sorted_on.
  - intros a b Ha Hb.
    rewrite (compareRef_le a b Ha Hb), (compareRef_le b a Hb Ha).
    pose proof (consistent_total compare (MultiEventEdge.event a.2)
                  (MultiEventEdge.event b.2) (compare_consistent H HL)).
    destruct (MultiEventEdge.prev a.2), (MultiEventEdge.prev b.2),
      (MultiEventEdge.definite a.2), (MultiEventEdge.definite b.2);
      destruct (Z.lt_total (MultiEventEdge.gridOrd a.2) (MultiEventEdge.gridOrd b.2))
        as [?|[?|?]]; intuition (auto; try congruence; try lia).
  - intros a b d Ha Hb Hd.
    rewrite (compareRef_le a b Ha Hb), (compareRef_le b d Hb Hd),
      (compareRef_le a d Ha Hd).
    pose proof (Htrans (MultiEventEdge.event a.2) (MultiEventEdge.event b.2)
                  (MultiEventEdge.event d.2)).
    destruct (MultiEventEdge.prev a.2), (MultiEventEdge.prev b.2),
      (MultiEventEdge.prev d.2),
      (MultiEventEdge.definite a.2), (MultiEventEdge.definite b.2),
      (MultiEventEdge.definite d.2);
      intuition (auto; try congruence; try lia).
Qed.

End SortedEdges.

(** The array that the render pass sweeps is one to which the properties of
    the sweep apply. *)
Lemma renderGrid_edges_sorted (H : Host) (HL : HostLaws H)
    (this : CalendarRenderer) (events : list Event) :
  Forall (fun e => 0 < multiLength e) events ->
  Array.sort compareRef (withIdentity (decomposeMultiEdges this events))
    ≡ₚ withIdentity (decomposeMultiEdges this events)
  /\ sortedEdges (Array.sort compareRef (withIdentity (decomposeMultiEdges this events))).
Proof.
  intros Hpos. split; [apply sort_perm|].
  apply sort_edges_sorted. by apply decomposed_linked.
Qed.

(** * Further properties *)

(** ** The grid of every year *)

Section GridOfYear.

Lemma year_length (y : Z) :
  Temporal.PlainDate y 12 31 - Temporal.PlainDate y 1 1
  = 364 + (if (y mod 4 =? 0) && (negb (y mod 100 =? 0) || (y mod 400 =? 0))
           then 1 else 0).
Proof.
  unfold Temporal.PlainDate. simpl.
  destruct (Z.eqb_spec (y mod 4) 0), (Z.eqb_spec (y mod 100) 0),
    (Z.eqb_spec (y mod 400) 0); simpl; Z.div_mod_to_equations; lia.
Qed.

Lemma year_length_bounds (y : Z) :
  364 <= Temporal.PlainDate y 12 31 - Temporal.PlainDate y 1 1 <= 365.
Proof. rewrite year_length. destruct (_ && _); lia. Qed.

(** X1. For every year the constructor makes a grid of whole weeks: it
    starts on a Sunday, its last day is a Saturday, and it has 371 or 378
    cells, that is 53 or 54 rows. *)
Theorem grid_weeks (year : Z) :
  Temporal.dayOfWeek (calendarStart (new_CalendarRenderer year)) = 7
  /\ Temporal.dayOfWeek (lastGridDay (new_CalendarRenderer year)) = 6
  /\ (calendarDays (new_CalendarRenderer year) = 371
      \/ calendarDays (new_CalendarRenderer year) = 378).
Proof.
  destruct (grid_whole_weeks year) as (Hstart & Hlast & Hmod).
  split; [exact Hstart|]. split; [exact Hlast|].
  pose proof (grid_bounds year) as [Hs He].
  pose proof (year_length_bounds year).
  unfold lastGridDay in He.
  assert (365 <= calendarDays (new_CalendarRenderer year) <= 378) by lia.
  Z.div_mod_to_equations. lia.
Qed.

(** X2. For every year, each date from 1 January to 31 December has a cell
    of the grid, except 31 December when it is a Sunday, which is then the
    day just after the grid; 1 January is never the first cell: it lies at
    ordinal 1 to 7. *)
Theorem grid_covers_year (year d : Z) :
  Temporal.PlainDate year 1 1 <= d <= Temporal.PlainDate year 12 31 ->
  (d <> Temporal.PlainDate year 12 31
   \/ Temporal.dayOfWeek (Temporal.PlainDate year 12 31) <> 7 ->
   0 <= gridOrd (new_CalendarRenderer year) d
     < calendarDays (new_CalendarRenderer year))
  /\ (Temporal.dayOfWeek (Temporal.PlainDate year 12 31) = 7 ->
      gridOrd (new_CalendarRenderer year) (Temporal.PlainDate year 12 31)
      = calendarDays (new_CalendarRenderer year))
  /\ 1 <= gridOrd (new_CalendarRenderer year) (Temporal.PlainDate year 1 1) <= 7.
Proof.
  intros Hd. unfold gridOrd, new_CalendarRenderer. simpl.
  pose proof (dayOfWeek_range (Temporal.PlainDate year 1 1)).
  pose proof (dayOfWeek_range (Temporal.PlainDate year 12 31)).
  repeat split; lia.
Qed.

Lemma grid_covers_year_witness :
  0 <= gridOrd (new_CalendarRenderer 2025) (Temporal.PlainDate 2025 3 10)
    < calendarDays (new_CalendarRenderer 2025).
Proof.
  assert (Hd : Temporal.PlainDate 2025 1 1 <= Temporal.PlainDate 2025 3 10
               <= Temporal.PlainDate 2025 12 31).
  { vm_compute. split; discriminate. }
  destruct (grid_covers_year 2025 (Temporal.PlainDate 2025 3 10) Hd) as [Hin _].
  apply Hin. left. vm_compute. discriminate.
Defined.

(** X3. A grid ordinal that is not negative lies in the cell of the row and
    the column computed for it: the column is 1 to 7, the row 2 or more, and
    the ordinal is read back from them, so that two such ordinals never share
    a cell.  A negative ordinal gets a row above the grid, and unless it is a
    multiple of 7 a column that is not 1 to 7. *)
Theorem grid_cell_of_ordinal (ord : Z) :
  (0 <= ord ->
   1 <= gridCol ord <= 7 /\ 2 <= gridRow ord
   /\ ord = 7 * (gridRow ord - 2) + (gridCol ord - 1))
  /\ (ord < 0 ->
      gridRow ord < 2 /\ (Z.rem ord 7 <> 0 -> gridCol ord < 1)).
Proof.
  unfold gridCol, gridRow. split.
  - intros Hord. rewrite Z.rem_mod_nonneg by lia. Z.div_mod_to_equations. lia.
  - intros Hord. split.
    + Z.div_mod_to_equations. lia.
    + Z.to_euclidean_division_equations. lia.
Qed.

(** X4. In the grid of every year, the column of a date that is not before
    the grid is its day of the week: Sunday in column 1, Monday in column 2,
    up to Saturday in column 7. *)
Theorem grid_column_is_weekday (year d : Z) :
  0 <= gridOrd (new_CalendarRenderer year) d ->
  gridCol (gridOrd (new_CalendarRenderer year) d)
  = Temporal.dayOfWeek d mod 7 + 1.
Proof.
  intros Hord. unfold gridCol. rewrite Z.rem_mod_nonneg by lia.
  revert Hord. unfold gridOrd, new_CalendarRenderer, Temporal.dayOfWeek. simpl.
  generalize (Temporal.PlainDate year 1 1). intros j Hord.
  Z.div_mod_to_equations. lia.
Qed.

Lemma grid_column_is_weekday_witness :
  gridCol (gridOrd (new_CalendarRenderer 2025) (Temporal.PlainDate 2025 3 10))
  = Temporal.dayOfWeek (Temporal.PlainDate 2025 3 10) mod 7 + 1.
Proof.
  apply (grid_column_is_weekday 2025 (Temporal.PlainDate 2025 3 10)).
  vm_compute. discriminate.
Defined.

End GridOfYear.

(** ** The cells of the grid loop *)

Section GridCells.
Context {H : Host}.
Variable this : CalendarRenderer.

(** What the grid loop writes for day [j]. *)
Lemma renderDays_cells n : forall (i : nat) allocated stack content,
  exists cells,
    (renderDays this n (Z.of_nat i) allocated (spaceBefore allocated i) stack content).1
    = content ++ map HtmlDay cells
    /\ length cells = n
    /\ forall k cell, cells !! k = Some cell ->
       day_datetime cell = calendarStart this + Z.of_nat (i + k)
       /\ day_row cell = gridRow (Z.of_nat (i + k))
       /\ day_col cell = gridCol (Z.of_nat (i + k))
       /\ day_text cell
          = (if (Z.of_nat (i + k) =? 0)
                || (Temporal.day (calendarStart this + Z.of_nat (i + k)) =? 1)
             then formatMonDate (calendarStart this + Z.of_nat (i + k))
             else Number_toString
                    (Temporal.day (calendarStart this + Z.of_nat (i + k))))
       /\ day_classes cell
          = (if Temporal.day (calendarStart this + Z.of_nat (i + k)) <=? 7
             then ["day"; "first-week"] else ["day"])
       /\ exists events,
            day_content cell
            = spacer (spaceAt allocated (i + k)) ++ map EventDiv events
            /\ Forall (fun e => startDate e = calendarStart this + Z.of_nat (i + k))
                 events.
Proof.
  induction n as [|n IH]; intros i allocated stack content.
  - exists []. simpl. rewrite app_nil_r. split; [done|]. split; [done|].
    intros k cell Hk. done.
  - cbn [renderDays].
    assert (Hspace : match allocated !! Z.of_nat i with
                     | Some s => s
                     | None => spaceBefore allocated i
                     end = spaceAt allocated i).
    { destruct i; reflexivity. }
    rewrite Hspace.
    destruct (popStarting_spec (length stack) (calendarStart this + Z.of_nat i)
                stack (spacer (spaceAt allocated i)))
      as (popped & rest & Hrun & _ & Hall & _).
    unfold renderDay. fold (spacer (spaceAt allocated i)). rewrite Hrun.
    replace (Z.of_nat i + 1) with (Z.of_nat (S i)) by lia.
    match goal with
    | |- context [renderDays this n _ _ _ rest (content ++ [HtmlDay ?c])] =>
        set (cell0 := c)
    end.
    destruct (IH (S i) allocated rest (content ++ [HtmlDay cell0]))
      as (cells & Hout & Hlen & Hcells).
    change (spaceBefore allocated (S i)) with (spaceAt allocated i) in Hout.
    exists (cell0 :: cells). split; [|split].
    + rewrite Hout, <- app_assoc. reflexivity.
    + simpl. by rewrite Hlen.
    + intros [|k] cell Hk; simpl in Hk.
      * injection Hk as <-. rewrite Nat.add_0_r. simpl.
        repeat split. exists popped. split; [reflexivity|exact Hall].
      * replace (i + S k)%nat with (S i + k)%nat by lia. by apply Hcells.
Qed.

End GridCells.

(** X5. Whatever the events, the render pass writes one day cell for each
    day of the grid, in order: the cell of day [i] carries the date
    [calendarStart + i], the row and the column of ordinal [i], the
    [first-week] class on the first seven days of a month, and as its label
    the month with the day on the first cell and on the first of a month, the
    day alone elsewhere. *)
Theorem renderGrid_one_cell_per_day (H : Host) (this : CalendarRenderer)
    (normal multi : list Event) :
  exists cells,
    (renderGrid this normal multi).2.1 = map HtmlDay cells
    /\ length cells = Z.to_nat (calendarDays this)
    /\ forall (i : nat) cell, cells !! i = Some cell ->
       day_datetime cell = calendarStart this + Z.of_nat i
       /\ day_row cell = gridRow (Z.of_nat i)
       /\ day_col cell = gridCol (Z.of_nat i)
       /\ day_text cell
          = (if (Z.of_nat i =? 0)
                || (Temporal.day (calendarStart this + Z.of_nat i) =? 1)
             then formatMonDate (calendarStart this + Z.of_nat i)
             else Number_toString (Temporal.day (calendarStart this + Z.of_nat i)))
       /\ day_classes cell
          = (if Temporal.day (calendarStart this + Z.of_nat i) <=? 7
             then ["day"; "first-week"] else ["day"]).
Proof.
  unfold renderGrid. cbn [snd].
  match goal with
  | |- context [renderDays this ?n 0 ?a 0%nat ?s []] =>
      destruct (renderDays_cells this n 0%nat a s []) as (cells & Hout & Hlen & Hcells)
  end.
  exists cells. split; [exact Hout|]. split; [exact Hlen|].
  intros i cell Hi. destruct (Hcells i cell Hi) as (? & ? & ? & ? & ? & _).
  auto.
Qed.

(** X6. The spacer of each day cell is the reserved space carried forward:
    the cell of day [i] starts with a spacer of the size recorded by
    [placeMultiEdges] at the last ordinal from 0 to [i] that has a record, has
    no spacer when that size is 0 or there is no such record, and holds after
    it only boxes of events that start on its date. *)
Theorem renderGrid_spacer (H : Host) (this : CalendarRenderer)
    (normal multi : list Event) :
  exists cells,
    (renderGrid this normal multi).2.1 = map HtmlDay cells
    /\ forall (i : nat) cell, cells !! i = Some cell ->
       exists events,
         day_content cell
         = spacer (spaceAt (allocatedSpace (renderGrid this normal multi).1.2) i)
           ++ map EventDiv events
         /\ Forall (fun e => startDate e = calendarStart this + Z.of_nat i) events.
Proof.
  unfold renderGrid. cbn [snd fst].
  match goal with
  | |- context [renderDays this ?n 0 ?a 0%nat ?s []] =>
      destruct (renderDays_cells this n 0%nat a s []) as (cells & Hout & Hlen & Hcells)
  end.
  exists cells. split; [exact Hout|].
  intros i cell Hi. destruct (Hcells i cell Hi) as (_ & _ & _ & _ & _ & Hc).
  exact Hc.
Qed.

(** ** More on the sweep *)

Section SweepMore.
Context {H : Host}.
Variables refs order : list (nat * Edge).
Hypothesis Hlinked : WellLinked refs.
Hypothesis Hperm : order ≡ₚ refs.
Hypothesis Hsorted : sortedEdges order.

(** A sorted array splits at any ordinal. *)
Lemma split_sorted_at (l : list (nat * Edge)) (i : Z) :
  sortedEdges l ->
  exists pre post,
    l = pre ++ post
    /\ Forall (fun y => MultiEventEdge.gridOrd y.2 <= i) pre
    /\ Forall (fun y => i < MultiEventEdge.gridOrd y.2) post.
Proof.
  unfold sortedEdges. induction 1 as [|x l Hl IH Hx].
  - exists [], []. repeat split; constructor.
  - destruct (Z.le_gt_cases (MultiEventEdge.gridOrd x.2) i) as [Hle|Hgt].
    + destruct IH as (pre & post & Heq & Hpre & Hpost).
      exists (x :: pre), post. rewrite Heq. repeat split; [by constructor|done].
    + exists [], (x :: l). repeat split; [constructor|].
      constructor; [lia|]. eapply Forall_impl; [exact Hx|]. simpl.
      intros y Hy. apply compareRef_le_ord in Hy. lia.
Qed.

Lemma split_at_ordinal (i : Z) :
  exists pre post,
    order = pre ++ post
    /\ Forall (fun y => MultiEventEdge.gridOrd y.2 <= i) pre
    /\ Forall (fun y => i < MultiEventEdge.gridOrd y.2) post.
Proof. by apply split_sorted_at. Qed.

Lemma spaceAt_carried (allocated : gmap Z nat) (j : nat) (s : nat) :
  allocated !! Z.of_nat j = Some s ->
  forall i, (j <= i)%nat ->
  (forall k, (j < k <= i)%nat -> allocated !! Z.of_nat k = None) ->
  spaceAt allocated i = s.
Proof.
  intros Hj i. induction i as [|i IH]; intros Hle Hnone.
  - assert (j = 0%nat) as -> by lia. simpl. by rewrite Hj.
  - destruct (decide (j = S i)) as [->|Hne].
    + simpl spaceAt. by rewrite Hj.
    + cbn [spaceAt]. rewrite (Hnone (S i)) by lia. apply IH; [lia|].
      intros k Hk. apply Hnone. lia.
Qed.

(** The lane of a segment is below the space reserved on every grid day the
    segment covers, when the segment does not start before the grid. *)
Lemma lane_below_space (a : nat) (oa : Edge) (ca : nat * Edge) (i l : nat) :
  (a, oa) ∈ order -> ca ∈ order -> MultiEventEdge.prev ca.2 = Some a ->
  0 <= MultiEventEdge.gridOrd oa <= Z.of_nat i ->
  Z.of_nat i < MultiEventEdge.gridOrd ca.2 ->
  placeOf (placeMultiEdges order) !! a = Some l ->
  (l < spaceAt (allocatedSpace (placeMultiEdges order)) i)%nat.
Proof.
  intros Ha Hca Hprev [Ha0 Hai] Hic Hl.
  pose proof (linked_open refs order Hlinked Hperm ca a oa Hca Hprev Ha) as Hopen.
  destruct (split_at_ordinal (Z.of_nat i)) as (pre & post & Hsplit & Hpre & Hpost).
  rewrite Forall_forall in Hpre, Hpost.
  assert (Hapre : (a, oa) ∈ pre).
  { rewrite Hsplit in Ha. apply elem_of_app in Ha as [?|Hin]; [done|].
    apply Hpost in Hin. simpl in Hin. lia. }
  destruct (list_elem_of_split _ _ Hapre) as (p1 & p2 & Hp).
  destruct (exists_last (l := pre)) as (pre' & x & Hlast).
  { rewrite Hp. by destruct p1. }
  assert (Hsplit' : order = pre' ++ x :: post).
  { rewrite Hsplit, Hlast, <- app_assoc. reflexivity. }
  set (j := MultiEventEdge.gridOrd x.2).
  assert (Hxi : j <= Z.of_nat i).
  { apply Hpre. rewrite Hlast. apply elem_of_app. right. by apply list_elem_of_singleton. }
  assert (Hmax : forall y, y ∈ pre -> MultiEventEdge.gridOrd y.2 <= j).
  { intros y Hy. rewrite Hlast in Hy. apply elem_of_app in Hy as [Hy|Hy].
    - by apply (split_before order Hsorted pre' post x Hsplit').
    - apply list_elem_of_singleton in Hy as ->. unfold j. lia. }
  assert (Haj : MultiEventEdge.gridOrd oa <= j) by (apply (Hmax (a, oa) Hapre)).
  assert (Hrec : allocatedSpace (placeMultiEdges order) !! j
                 = Some (length (places (sweepFrom emptySweep pre)))).
  { unfold placeMultiEdges. rewrite Hsplit at 1. rewrite sweepFrom_app.
    rewrite allocatedSpace_kept.
    - rewrite Hlast.
      apply (recorded_space refs order Hlinked Hperm Hsorted pre' x post Hsplit').
    - apply Forall_forall. intros y Hy. apply Hpost in Hy. lia. }
  assert (Hnone : forall k, j < k <= Z.of_nat i ->
            allocatedSpace (placeMultiEdges order) !! k = None).
  { intros k Hk. unfold placeMultiEdges. rewrite allocatedSpace_kept; [done|].
    apply Forall_forall. intros y Hy. rewrite Hsplit in Hy.
    apply elem_of_app in Hy as [Hy|Hy]; [apply Hmax in Hy|apply Hpost in Hy]; lia. }
  assert (Hspace : spaceAt (allocatedSpace (placeMultiEdges order)) i
                   = length (places (sweepFrom emptySweep pre))).
  { apply (spaceAt_carried _ (Z.to_nat j)).
    - rewrite Z2Nat.id by lia. exact Hrec.
    - lia.
    - intros k Hk. apply Hnone. lia. }
  rewrite Hspace. apply lookup_lt_Some with (x := true).
  apply (occupied_places refs order Hlinked Hperm Hsorted pre post l Hsplit).
  exists a. split; [|exact Hl]. split.
  - by exists oa.
  - intros (c & Hc & Hcp).
    assert (c = ca) as ->.
    { apply (wl_unique _ Hlinked c ca a); auto; apply (order_refs refs order Hperm); auto.
      rewrite Hsplit. apply elem_of_app. by left. }
    apply Hpre in Hc. lia.
Qed.

(** When the sweep reaches a close edge, its open edge has a lane and that
    lane is set in the array of lanes. *)
Lemma close_finds_lane pre x post p :
  order = pre ++ x :: post -> MultiEventEdge.prev x.2 = Some p ->
  exists l, placeOf (sweepFrom emptySweep pre) !! p = Some l
            /\ places (sweepFrom emptySweep pre) !! l = Some true.
Proof.
  intros Hsplit Hp.
  pose proof (inv_prefix refs order Hlinked Hperm Hsorted pre (x :: post) Hsplit)
    as Hinv.
  pose proof (open_first refs order Hlinked Hperm Hsorted pre post x Hsplit p Hp)
    as Hopen.
  apply (inv_placed _ _ Hinv) in Hopen as [l Hl]. exists l. split; [exact Hl|].
  apply (inv_places _ _ Hinv). exists p. split; [exact Hl|].
  by apply (not_closed_yet refs order Hlinked Hperm pre post x Hsplit).
Qed.

(** The lanes below the one given to an open edge are those of as many
    distinct open segments. *)
Lemma lanes_below_are_open pre x post lane :
  order = pre ++ x :: post -> MultiEventEdge.prev x.2 = None ->
  placeOf (placeMultiEdges order) !! x.1 = Some lane ->
  forall n, (n <= lane)%nat ->
  exists os : list nat,
    length os = n /\ NoDup os
    /\ forall o, o ∈ os ->
         openAt pre o
         /\ exists k, (k < n)%nat /\ placeOf (placeMultiEdges order) !! o = Some k.
Proof.
  intros Hsplit Hx Hlane.
  destruct (lane_lowest_free refs order Hlinked Hperm Hsorted pre x post Hsplit Hx)
    as (lane' & Hlane' & _ & Hbelow).
  assert (lane' = lane) as -> by congruence.
  induction n as [|n IH]; intros Hn.
  - exists []. split; [done|]. split; [constructor|]. intros o Ho.
    by apply elem_of_nil in Ho.
  - destruct IH as (os & Hlen & Hnd & Hos); [lia|].
    destruct (Hbelow n ltac:(lia)) as (o & Hopen & Ho).
    exists (o :: os). split; [simpl; by rewrite Hlen|]. split.
    + constructor; [|done]. intros Hin.
      destruct (Hos o Hin) as (_ & k & Hk & Hok). rewrite Ho in Hok.
      injection Hok as ->. lia.
    + intros o' Ho'. apply elem_of_cons in Ho' as [->|Ho'].
      * split; [done|]. exists n. split; [lia|done].
      * destruct (Hos o' Ho') as (Hop & k & Hk & Hok).
        split; [done|]. exists k. split; [lia|done].
Qed.

Hypothesis Hclosed : forall x, x ∈ refs -> MultiEventEdge.prev x.2 = None ->
  exists c, c ∈ refs /\ MultiEventEdge.prev c.2 = Some x.1.

(** When every open edge has its close edge, the sweep ends with no lane
    occupied and an empty array of lanes. *)
Lemma sweep_ends_empty :
  places (placeMultiEdges order) = []
  /\ forall l, ~ occupied (placeOf (placeMultiEdges order)) order l.
Proof.
  assert (Hsplit : order = order ++ []) by (by rewrite app_nil_r).
  pose proof (inv_prefix refs order Hlinked Hperm Hsorted order [] Hsplit) as Hinv.
  assert (Hnone : forall l, ~ occupied (placeOf (placeMultiEdges order)) order l).
  { intros l (o & [Hopen Hnot] & _). apply Hnot.
    destruct Hopen as (e & He & Hprev).
    destruct (Hclosed (o, e)) as (c & Hc & Hcp); [by apply (order_refs refs order Hperm)|done|].
    exists c. split; [by apply (order_refs refs order Hperm)|done]. }
  split; [|exact Hnone].
  destruct (length_highest _ (inv_last _ _ Hinv)) as [[Hlen _]|(top & _ & Htop & _)].
  - by apply length_zero_iff_nil.
  - exfalso. apply (Hnone top).
    by apply (occupied_places refs order Hlinked Hperm Hsorted order [] top Hsplit).
Qed.

End SweepMore.

Lemma edgesOf_closed (segs : list Segment) (x : nat * Edge) :
  x ∈ withIdentity (edgesOf 0 segs) -> MultiEventEdge.prev x.2 = None ->
  exists c, c ∈ withIdentity (edgesOf 0 segs)
            /\ MultiEventEdge.prev c.2 = Some x.1.
Proof.
  destruct x as [j e]. intros Hx Hprev. simpl in *.
  apply elem_withIdentity, lookup_edgesOf in Hx
    as (i & s & Hs & [[-> ->]|[_ ->]]); [|done].
  exists (S (2 * i),
          MultiEventEdge.mk (seg_close s) (seg_event s) (Some (2 * i)%nat)
            (seg_definiteEnd s)).
  split; [|reflexivity].
  apply elem_withIdentity, lookup_edgesOf. exists i, s. split; [done|].
  right. split; [done|]. do 2 f_equal.
Qed.

Lemma decomposed_closed (H : Host) (this : CalendarRenderer)
    (events : list Event) (x : nat * Edge) :
  x ∈ withIdentity (decomposeMultiEdges this events) ->
  MultiEventEdge.prev x.2 = None ->
  exists c, c ∈ withIdentity (decomposeMultiEdges this events)
            /\ MultiEventEdge.prev c.2 = Some x.1.
Proof. rewrite decomposeMultiEdges_rows. apply edgesOf_closed. Qed.

(** ** The allocator, the decomposer and the grid together *)

(** X7. In the render pass, on a host with a consistent comparison of
    strings and for events of positive [multiLength()]: the lane of every
    segment that does not start before the grid is below the space reserved in
    the cell of each grid day the segment covers, so that the spacer of the
    cell clears the bar. *)
Theorem renderGrid_bars_fit (H : Host) (HL : HostLaws H)
    (this : CalendarRenderer) (normal multi : list Event) :
  Forall (fun e => 0 < multiLength e) multi ->
  forall (a : nat) (oa : Edge) (ca : nat * Edge) (i l : nat),
    (a, oa) ∈ (renderGrid this normal multi).1.1 ->
    ca ∈ (renderGrid this normal multi).1.1 ->
    MultiEventEdge.prev ca.2 = Some a ->
    0 <= MultiEventEdge.gridOrd oa <= Z.of_nat i ->
    Z.of_nat i < MultiEventEdge.gridOrd ca.2 ->
    placeOf (renderGrid this normal multi).1.2 !! a = Some l ->
    (l < spaceAt (allocatedSpace (renderGrid this normal multi).1.2) i)%nat.
Proof.
  intros Hpos a oa ca i l. unfold renderGrid. cbn [fst snd].
  destruct (renderGrid_edges_sorted H HL this multi Hpos) as [Hperm Hsorted].
  apply (lane_below_space _ _ (decomposed_linked this multi Hpos) Hperm Hsorted).
Qed.

Lemma renderGrid_bars_fit_witness :
  Forall (fun e => 0 < multiLength (H := Iso.host) e) threeEvents
  /\ (2 < spaceAt (allocatedSpace
                     (renderGrid (H := Iso.host) grid2025 [] threeEvents).1.2) 10)%nat.
Proof.
  split; [exact threeEvents_positive|].
  apply (renderGrid_bars_fit Iso.host Iso_laws grid2025 [] threeEvents
           threeEvents_positive 4%nat
           (MultiEventEdge.mk 8 (dateEvent "C" "2025-01-06" "2025-01-10") None true)
           (5%nat, MultiEventEdge.mk 12 (dateEvent "C" "2025-01-06" "2025-01-10")
                     (Some 4%nat) true)
           10%nat 2%nat).
  - apply (list_elem_of_lookup_2 _ 2%nat). vm_compute. reflexivity.
  - apply (list_elem_of_lookup_2 _ 5%nat). vm_compute. reflexivity.
  - reflexivity.
  - vm_compute. split; discriminate.
  - vm_compute. reflexivity.
  - vm_compute. reflexivity.
Defined.

(** X8. In the sweep of [placeMultiEdges] over the edges of events of
    positive [multiLength()], in the order of the comparator, no close edge is
    skipped and the assertion of the loop holds: when the sweep reaches a
    close edge, the open edge it links to has its lane, and that lane is
    occupied in the array of lanes. *)
Theorem placeMultiEdges_close_frees_occupied (H : Host)
    (this : CalendarRenderer) (events : list Event)
    (order : list (nat * Edge)) :
  Forall (fun e => 0 < multiLength e) events ->
  order ≡ₚ withIdentity (decomposeMultiEdges this events) ->
  sortedEdges order ->
  forall pre x post,
    order = pre ++ x :: post -> MultiEventEdge.prev x.2 <> None ->
    closeGuard (sweepFrom emptySweep pre) x = true
    /\ assertOccupied (sweepFrom emptySweep pre) x = true.
Proof.
  intros Hpos Hperm Hsorted pre x post Hsplit Hclose.
  destruct (MultiEventEdge.prev x.2) as [p|] eqn:Hp; [|done].
  destruct (close_finds_lane _ order (decomposed_linked this events Hpos)
              Hperm Hsorted pre x post p Hsplit Hp) as (l & Hl & Hocc).
  unfold closeGuard, assertOccupied. rewrite Hp, Hl. split.
  - apply bool_decide_eq_true_2. eauto.
  - by apply bool_decide_eq_true_2.
Qed.

Lemma placeMultiEdges_close_frees_occupied_witness :
  Forall (fun e => 0 < multiLength (H := Iso.host) e) threeEvents
  /\ sortedEdges (H := Iso.host) threeSorted
  /\ exists x,
       threeSorted !! 3%nat = Some x
       /\ closeGuard (sweepFrom emptySweep (take 3 threeSorted)) x = true
       /\ assertOccupied (sweepFrom emptySweep (take 3 threeSorted)) x = true.
Proof.
  split; [exact threeEvents_positive|]. split; [exact threeSorted_sorted|].
  destruct (threeSorted !! 3%nat) as [x|] eqn:Hx; [|vm_compute in Hx; discriminate].
  exists x. split; [reflexivity|].
  apply (placeMultiEdges_close_frees_occupied Iso.host grid2025 threeEvents
           threeSorted threeEvents_positive threeSorted_perm threeSorted_sorted
           (take 3 threeSorted) x (drop 4 threeSorted)).
  - rewrite <- (take_drop 3 threeSorted) at 1. f_equal.
    rewrite (drop_S _ x 3 Hx). reflexivity.
  - vm_compute in Hx. injection Hx as <-. discriminate.
Defined.

(** X9. The sweep of [placeMultiEdges] over the edges of events of positive
    [multiLength()], in the order of the comparator, ends with every lane
    free: the array of lanes is empty, no lane is occupied, every open edge
    has received a lane, and the value recorded at the ordinal of the last
    edge is 0. *)
Theorem placeMultiEdges_ends_empty (H : Host) (this : CalendarRenderer)
    (events : list Event) (order : list (nat * Edge)) :
  Forall (fun e => 0 < multiLength e) events ->
  order ≡ₚ withIdentity (decomposeMultiEdges this events) ->
  sortedEdges order ->
  places (placeMultiEdges order) = []
  /\ (forall l, ~ occupied (placeOf (placeMultiEdges order)) order l)
  /\ (forall x, x ∈ order -> MultiEventEdge.prev x.2 = None ->
      is_Some (placeOf (placeMultiEdges order) !! x.1))
  /\ (forall pre x, order = pre ++ [x] ->
      allocatedSpace (placeMultiEdges order) !! MultiEventEdge.gridOrd x.2
      = Some 0%nat).
Proof.
  intros Hpos Hperm Hsorted.
  pose proof (decomposed_linked this events Hpos) as Hlinked.
  destruct (sweep_ends_empty _ order Hlinked Hperm Hsorted
              (decomposed_closed H this events)) as [Hempty Hnone].
  split; [exact Hempty|]. split; [exact Hnone|]. split.
  - intros x Hx Hopen.
    assert (Hsplit : order = order ++ []) by (by rewrite app_nil_r).
    apply (inv_placed _ _ (inv_prefix _ order Hlinked Hperm Hsorted order [] Hsplit)).
    exists x.2. split; [by destruct x|done].
  - intros pre x Hsplit.
    assert (Hsplit' : order = pre ++ x :: []) by exact Hsplit.
    pose proof (recorded_space _ order Hlinked Hperm Hsorted pre x [] Hsplit')
      as Hrec.
    rewrite <- Hsplit in Hrec. fold (placeMultiEdges order) in Hrec.
    rewrite Hrec, Hempty. reflexivity.
Qed.

Lemma placeMultiEdges_ends_empty_witness :
  Forall (fun e => 0 < multiLength (H := Iso.host) e) threeEvents
  /\ sortedEdges (H := Iso.host) threeSorted
  /\ places (placeMultiEdges threeSorted) = [].
Proof.
  split; [exact threeEvents_positive|]. split; [exact threeSorted_sorted|].
  apply (placeMultiEdges_ends_empty Iso.host grid2025 threeEvents threeSorted
           threeEvents_positive threeSorted_perm threeSorted_sorted).
Defined.

(** X10. In the sweep of [placeMultiEdges] over the edges of events of
    positive [multiLength()], in the order of the comparator, the lane given
    to an open edge is at most the number of segments open when the sweep
    reaches it: there are as many distinct open segments as the lane number,
    each on a lower lane.  The lanes in use are thus bounded by the
    greatest number of segments open together, not by the number of
    events. *)
Theorem placeMultiEdges_lane_bounded (H : Host) (this : CalendarRenderer)
    (events : list Event) (order : list (nat * Edge)) :
  Forall (fun e => 0 < multiLength e) events ->
  order ≡ₚ withIdentity (decomposeMultiEdges this events) ->
  sortedEdges order ->
  forall pre x post lane,
    order = pre ++ x :: post -> MultiEventEdge.prev x.2 = None ->
    placeOf (placeMultiEdges order) !! x.1 = Some lane ->
    exists os : list nat,
      length os = lane /\ NoDup os
      /\ forall o, o ∈ os ->
           openAt pre o
           /\ exists k, (k < lane)%nat
                        /\ placeOf (placeMultiEdges order) !! o = Some k.
Proof.
  intros Hpos Hperm Hsorted pre x post lane Hsplit Hx Hlane.
  apply (lanes_below_are_open _ order (decomposed_linked this events Hpos)
           Hperm Hsorted pre x post lane Hsplit Hx Hlane lane).
  lia.
Qed.

Lemma placeMultiEdges_lane_bounded_witness :
  Forall (fun e => 0 < multiLength (H := Iso.host) e) threeEvents
  /\ sortedEdges (H := Iso.host) threeSorted
  /\ exists os : list nat,
       length os = 2%nat /\ NoDup os
       /\ forall o, o ∈ os ->
            openAt (take 2 threeSorted) o
            /\ exists k, (k < 2)%nat
                         /\ placeOf (placeMultiEdges threeSorted) !! o = Some k.
Proof.
  split; [exact threeEvents_positive|]. split; [exact threeSorted_sorted|].
  apply (placeMultiEdges_lane_bounded Iso.host grid2025 threeEvents threeSorted
           threeEvents_positive threeSorted_perm threeSorted_sorted
           (take 2 threeSorted)
           (4%nat, MultiEventEdge.mk 8 (dateEvent "C" "2025-01-06" "2025-01-10")
                     None true)
           (drop 3 threeSorted) 2%nat).
  - vm_compute. reflexivity.
  - reflexivity.
  - vm_compute. reflexivity.
Defined.

(** ** More on the decomposer *)

Section DecomposerMore.
Context {H : Host}.
Variable this : CalendarRenderer.

Lemma rows_count fuel : forall e lo definite g end_,
  0 <= lo -> lo < end_ -> g = 7 * (lo / 7) + 7 ->
  (Z.to_nat (end_ - g) <= fuel)%nat ->
  Z.of_nat (length (rows fuel e lo definite g end_))
  = (end_ - 1) / 7 - lo / 7 + 1.
Proof.
  induction fuel as [|fuel IH]; intros e lo definite g end_ H0 Hend Hg Hfuel; simpl.
  - Z.div_mod_to_equations. lia.
  - destruct (Z.ltb_spec g end_); simpl length.
    + rewrite Nat2Z.inj_succ.
      rewrite (IH e g false (g + 7) end_)
        by (try subst g; Z.div_mod_to_equations; lia).
      subst g. Z.div_mod_to_equations. lia.
    + Z.div_mod_to_equations. lia.
Qed.

Lemma rows_definite fuel : forall e lo definite g end_ k,
  map MultiEventEdge.definite (edgesOf k (rows fuel e lo definite g end_))
  = definite
    :: replicate (2 * (length (rows fuel e lo definite g end_) - 1)) false
    ++ [true].
Proof.
  induction fuel as [|fuel IH]; intros e lo definite g end_ k; simpl.
  - reflexivity.
  - destruct (g <? end_); [|reflexivity]. simpl. rewrite IH.
    set (n := length (rows fuel e g false (g + 7) end_)).
    assert (Hn : (1 <= n)%nat).
    { unfold n. destruct fuel; simpl; [lia|]. destruct (g + 7 <? end_); simpl; lia. }
    replace (n - 0 + (n - 0 + 0))%nat with (S (S (2 * (n - 1)))) by lia.
    reflexivity.
Qed.

Lemma rows_indefinite_at_weeks fuel : forall e lo definite g end_ k,
  g mod 7 = 0 -> (definite = false -> lo mod 7 = 0) ->
  Forall (fun x => MultiEventEdge.definite x = false ->
                   MultiEventEdge.gridOrd x mod 7 = 0)
    (edgesOf k (rows fuel e lo definite g end_)).
Proof.
  induction fuel as [|fuel IH]; intros e lo definite g end_ k Hg Hlo; simpl.
  - repeat constructor; simpl; [exact Hlo|done].
  - destruct (g <? end_); simpl.
    + constructor; [exact Hlo|]. constructor; [done|].
      apply IH; [|done]. Z.div_mod_to_equations. lia.
    + repeat constructor; simpl; [exact Hlo|done].
Qed.

Lemma rows_within_week fuel : forall e lo definite g end_,
  0 <= lo -> lo < end_ -> g = 7 * (lo / 7) + 7 ->
  (Z.to_nat (end_ - g) <= fuel)%nat ->
  Forall (fun s => 0 <= seg_open s < seg_close s
                   /\ seg_close s <= 7 * (seg_open s / 7) + 7)
    (rows fuel e lo definite g end_).
Proof.
  induction fuel as [|fuel IH]; intros e lo definite g end_ H0 Hend Hg Hfuel; simpl.
  - repeat constructor; simpl; lia.
  - destruct (Z.ltb_spec g end_).
    + constructor; [simpl; Z.div_mod_to_equations; lia|].
      apply IH; subst g; Z.div_mod_to_equations; lia.
    + repeat constructor; simpl; lia.
Qed.

Lemma rowSegments_within_week (e : Event) :
  0 < multiLength e -> 0 <= gridOrd this (startDate e) ->
  Forall (fun s => 0 <= seg_open s < seg_close s
                   /\ seg_close s <= 7 * (seg_open s / 7) + 7)
    (rowSegments this e).
Proof.
  intros Hpos Hstart. unfold rowSegments. apply rows_within_week; try lia.
  by apply followingSunday_week.
Qed.

End DecomposerMore.

(** X11. For every event of positive [multiLength()] that does not start
    before the grid, given to the decomposer among any others: the edges
    pushed for it are two for each grid row from the row of its start to the
    row of its last day; the first and the last of them are definite and all
    those between are indefinite and lie at multiples of 7.  An event inside
    one row thus gets one open edge and one close edge, both definite. *)
Theorem decomposeMultiEdges_rows_crossed (H : Host) (this : CalendarRenderer)
    (before : list Event) (e : Event) (after : list Event) :
  0 < multiLength e -> 0 <= gridOrd this (startDate e) ->
  let block := edgesFor this before e
                 (decomposeMultiEdges this (before ++ e :: after)) in
  Z.of_nat (length block)
  = 2 * (gridRow (gridOrd this (startDate e) + multiLength e - 1)
         - gridRow (gridOrd this (startDate e)) + 1)
  /\ map MultiEventEdge.definite block
     = true :: replicate (length block - 2) false ++ [true]
  /\ Forall (fun x => MultiEventEdge.definite x = false ->
                      MultiEventEdge.gridOrd x mod 7 = 0) block.
Proof.
  intros Hpos Hstart block. unfold block. rewrite edgesFor_rows.
  assert (Hcount : Z.of_nat (length (rowSegments this e))
    = (gridOrd this (startDate e) + multiLength e - 1) / 7
      - gridOrd this (startDate e) / 7 + 1).
  { unfold rowSegments. apply rows_count; try lia.
    by apply followingSunday_week. }
  split; [|split].
  - rewrite length_edgesOf. unfold gridRow. lia.
  - unfold rowSegments at 1. rewrite rows_definite.
    fold (rowSegments this e). rewrite length_edgesOf.
    replace (2 * length (rowSegments this e) - 2)%nat
      with (2 * (length (rowSegments this e) - 1))%nat by lia.
    reflexivity.
  - unfold rowSegments. apply rows_indefinite_at_weeks; [|done].
    rewrite followingSunday_week by done. Z.div_mod_to_equations. lia.
Qed.

Lemma decomposeMultiEdges_rows_crossed_witness :
  0 < multiLength (H := Iso.host) tenDays
  /\ 0 <= gridOrd grid2025 (startDate (H := Iso.host) tenDays)
  /\ Z.of_nat (length (edgesFor (H := Iso.host) grid2025 [] tenDays
                         (decomposeMultiEdges (H := Iso.host) grid2025
                            ([] ++ tenDays :: []))))
     = 2 * (gridRow (gridOrd grid2025 (startDate (H := Iso.host) tenDays)
                     + multiLength (H := Iso.host) tenDays - 1)
            - gridRow (gridOrd grid2025 (startDate (H := Iso.host) tenDays)) + 1).
Proof.
  assert (Hpos : 0 < multiLength (H := Iso.host) tenDays) by reflexivity.
  assert (Hstart : 0 <= gridOrd grid2025 (startDate (H := Iso.host) tenDays)).
  { vm_compute. discriminate. }
  split; [exact Hpos|]. split; [exact Hstart|].
  apply (decomposeMultiEdges_rows_crossed Iso.host grid2025 [] tenDays []
           Hpos Hstart).
Defined.

Section DecomposerEdges.
Context {H : Host}.
Variable this : CalendarRenderer.

(** The segments read back through the links are those of [rowSegments]. *)
Lemma segmentsOf_edgesFor before e after :
  segmentsOf (decomposeMultiEdges this (before ++ e :: after))
    (edgesFor this before e (decomposeMultiEdges this (before ++ e :: after)))
  = map span (rowSegments this e).
Proof.
  rewrite edgesFor_rows.
  rewrite (decomposeMultiEdges_rows this (before ++ e :: after)), flat_map_app.
  simpl. rewrite !edgesOf_app.
  rewrite <- (decomposeMultiEdges_rows this before).
  replace (0 + 2 * length (flat_map (rowSegments this) before))%nat
    with (length (decomposeMultiEdges this before))
    by (rewrite decomposeMultiEdges_rows, length_edgesOf; lia).
  apply segmentsOf_edgesOf.
Qed.

Lemma rows_head fuel e lo definite g end_ :
  (Z.to_nat (end_ - g) <= fuel)%nat ->
  head (map span (rows fuel e lo definite g end_)) = Some (lo, Z.min g end_).
Proof.
  intros Hfuel. destruct fuel as [|fuel].
  - replace (Z.min g end_) with end_ by lia. reflexivity.
  - cbn [rows]. destruct (Z.ltb_spec g end_).
    + replace (Z.min g end_) with g by lia. reflexivity.
    + replace (Z.min g end_) with end_ by lia. reflexivity.
Qed.

End DecomposerEdges.

(** X12. An event of positive [multiLength()] that starts before the grid,
    at a negative ordinal that is not a multiple of 7, has its first segment
    closed at the second multiple of 7 after its start (or at its end when
    that comes first): the first week boundary after the start is not cut.
    When the event runs past that boundary, its first segment therefore lies
    in two grid rows. *)
Theorem decomposeMultiEdges_before_grid (H : Host) (this : CalendarRenderer)
    (before : list Event) (e : Event) (after : list Event) :
  0 < multiLength e ->
  gridOrd this (startDate e) < 0 ->
  Z.rem (gridOrd this (startDate e)) 7 <> 0 ->
  let start := gridOrd this (startDate e) in
  let close := Z.min (7 * (start / 7) + 14) (start + multiLength e) in
  head (segmentsOf (decomposeMultiEdges this (before ++ e :: after))
          (edgesFor this before e
             (decomposeMultiEdges this (before ++ e :: after))))
  = Some (start, close)
  /\ (7 * (start / 7) + 7 < start + multiLength e ->
      gridRow start < gridRow (close - 1)).
Proof.
  intros Hpos Hneg Hrem start close.
  rewrite segmentsOf_edgesFor. unfold rowSegments. fold start.
  rewrite rows_head by lia.
  assert (Hfs : start - Z.rem start 7 + 7 = 7 * (start / 7) + 14).
  { Z.to_euclidean_division_equations. lia. }
  rewrite Hfs. split; [reflexivity|].
  intros Hpast. unfold gridRow, close. Z.div_mod_to_equations. lia.
Qed.

Lemma decomposeMultiEdges_before_grid_witness :
  0 < multiLength (H := Iso.host) yearEnd
  /\ gridOrd grid2025 (startDate (H := Iso.host) yearEnd) < 0
  /\ head (segmentsOf (decomposeMultiEdges (H := Iso.host) grid2025
                         ([] ++ yearEnd :: []))
             (edgesFor (H := Iso.host) grid2025 [] yearEnd
                (decomposeMultiEdges (H := Iso.host) grid2025
                   ([] ++ yearEnd :: []))))
     = Some (gridOrd grid2025 (startDate (H := Iso.host) yearEnd),
             Z.min (7 * (gridOrd grid2025 (startDate (H := Iso.host) yearEnd) / 7) + 14)
               (gridOrd grid2025 (startDate (H := Iso.host) yearEnd)
                + multiLength (H := Iso.host) yearEnd)).
Proof.
  assert (Hpos : 0 < multiLength (H := Iso.host) yearEnd) by reflexivity.
  assert (Hneg : gridOrd grid2025 (startDate (H := Iso.host) yearEnd) < 0)
    by reflexivity.
  split; [exact Hpos|]. split; [exact Hneg|].
  apply (decomposeMultiEdges_before_grid Iso.host grid2025 [] yearEnd []
           Hpos Hneg).
  vm_compute. discriminate.
Defined.

Example yearEnd_segment :
  segmentsOf (decomposeMultiEdges (H := Iso.host) grid2025 [yearEnd])
    (decomposeMultiEdges (H := Iso.host) grid2025 [yearEnd])
  = [(-2, 5)]
  /\ gridRow (-2) = 1 /\ gridRow 4 = 2 /\ gridCol (-2) = -1.
Proof. vm_compute. repeat split. Qed.

(** ** The bars *)

(** X13. For events of positive [multiLength()] that do not start before the
    grid, the bar that [renderMultiEdge] draws for a close edge lies in the
    one grid row of its segment, starts in the column of the segment's open
    edge and is as many columns wide as the segment has days, within the
    seven columns; it is marked as continuing where an end of the segment is
    indefinite, and carries the lane of the open edge. *)
Theorem renderMultiEdge_bar (H : Host) (this : CalendarRenderer)
    (events : list Event) (placed : gmap nat nat) (j : nat) (c : Edge) (p : nat) :
  Forall (fun e => 0 < multiLength e /\ 0 <= gridOrd this (startDate e)) events ->
  decomposeMultiEdges this events !! j = Some c ->
  MultiEventEdge.prev c = Some p ->
  exists o,
    decomposeMultiEdges this events !! p = Some o
    /\ MultiEventEdge.prev o = None
    /\ renderMultiEdge (decomposeMultiEdges this events) placed c
       = HtmlMulti
           {| multi_classes := barClasses (MultiEventEdge.definite o)
                                 (MultiEventEdge.definite c);
              multi_row := gridRow (MultiEventEdge.gridOrd o);
              multi_left := gridCol (MultiEventEdge.gridOrd o);
              multi_right := gridCol (MultiEventEdge.gridOrd o)
                             + (MultiEventEdge.gridOrd c - MultiEventEdge.gridOrd o);
              multi_place := placed !! p;
              multi_event := MultiEventEdge.event c |}
    /\ 0 < MultiEventEdge.gridOrd c - MultiEventEdge.gridOrd o
    /\ 1 <= gridCol (MultiEventEdge.gridOrd o)
    /\ gridCol (MultiEventEdge.gridOrd o)
       + (MultiEventEdge.gridOrd c - MultiEventEdge.gridOrd o) <= 8
    /\ gridRow (MultiEventEdge.gridOrd o) = gridRow (MultiEventEdge.gridOrd c - 1).
Proof.
  intros Hall Hj Hp.
  assert (Hweek : Forall (fun s => 0 <= seg_open s < seg_close s
                                   /\ seg_close s <= 7 * (seg_open s / 7) + 7)
                    (flat_map (rowSegments this) events)).
  { clear Hj. induction Hall as [|e events [He1 He2] _ IH]; simpl; [constructor|].
    apply Forall_app. split; [by apply rowSegments_within_week|exact IH]. }
  rewrite decomposeMultiEdges_rows in *.
  apply lookup_edgesOf in Hj as (i & s & Hs & [[_ ->]|[_ ->]]); simpl in Hp; [done|].
  injection Hp as <-.
  rewrite Forall_lookup in Hweek. specialize (Hweek i s Hs).
  destruct Hweek as [[Hlo Hlt] Hhi].
  set (o := MultiEventEdge.mk (seg_open s) (seg_event s) None (seg_definiteStart s)).
  assert (Ho : edgesOf 0 (flat_map (rowSegments this) events) !! (0 + 2 * i)%nat
               = Some o).
  { apply lookup_edgesOf. exists i, s. split; [done|]. left. split; [lia|done]. }
  exists o. split; [exact Ho|]. split; [reflexivity|].
  assert (Hright : gridCol (seg_close s - 1) + 1
                   = gridCol (seg_open s) + (seg_close s - seg_open s)).
  { unfold gridCol. rewrite !Z.rem_mod_nonneg by lia. Z.div_mod_to_equations. lia. }
  split; [|split; [|split; [|split]]].
  - unfold renderMultiEdge. cbn [MultiEventEdge.prev]. rewrite Ho.
    cbn [MultiEventEdge.gridOrd MultiEventEdge.definite MultiEventEdge.event o].
    rewrite Hright. reflexivity.
  - simpl. lia.
  - simpl. unfold gridCol. rewrite Z.rem_mod_nonneg by lia. Z.div_mod_to_equations. lia.
  - simpl. unfold gridCol. rewrite Z.rem_mod_nonneg by lia. Z.div_mod_to_equations. lia.
  - simpl. unfold gridRow. Z.div_mod_to_equations. lia.
Qed.

Lemma renderMultiEdge_bar_witness :
  Forall (fun e => 0 < multiLength (H := Iso.host) e
                   /\ 0 <= gridOrd grid2025 (startDate (H := Iso.host) e)) [tenDays]
  /\ exists o,
       decomposeMultiEdges (H := Iso.host) grid2025 [tenDays] !! 2%nat = Some o
       /\ MultiEventEdge.prev o = None
       /\ renderMultiEdge (decomposeMultiEdges (H := Iso.host) grid2025 [tenDays]) ∅
            (MultiEventEdge.mk 77 tenDays (Some 2%nat) false)
          = HtmlMulti
              {| multi_classes := barClasses (MultiEventEdge.definite o) false;
                 multi_row := gridRow (MultiEventEdge.gridOrd o);
                 multi_left := gridCol (MultiEventEdge.gridOrd o);
                 multi_right := gridCol (MultiEventEdge.gridOrd o)
                                + (77 - MultiEventEdge.gridOrd o);
                 multi_place := (∅ : gmap nat nat) !! 2%nat;
                 multi_event := tenDays |}
       /\ 0 < 77 - MultiEventEdge.gridOrd o
       /\ 1 <= gridCol (MultiEventEdge.gridOrd o)
       /\ gridCol (MultiEventEdge.gridOrd o) + (77 - MultiEventEdge.gridOrd o) <= 8
       /\ gridRow (MultiEventEdge.gridOrd o) = gridRow (77 - 1).
Proof.
  assert (Hall : Forall (fun e => 0 < multiLength (H := Iso.host) e
                   /\ 0 <= gridOrd grid2025 (startDate (H := Iso.host) e)) [tenDays]).
  { repeat constructor. vm_compute. discriminate. }
  split; [exact Hall|].
  apply (renderMultiEdge_bar Iso.host grid2025 [tenDays] ∅ 3%nat
           (MultiEventEdge.mk 77 tenDays (Some 2%nat) false) 2%nat Hall).
  - vm_compute. reflexivity.
  - reflexivity.
Defined.

(** ** The fragments of [renderVariables] *)

Section Layout.
Context {H : Host}.

Lemma withIdentity_snd (arena : list Edge) : (withIdentity arena).*2 = arena.
Proof.
  unfold withIdentity. apply list_eq. intros i.
  rewrite list_lookup_fmap, list_lookup_imap. by destruct (arena !! i).
Qed.

(** A place once written stays written. *)
Lemma placeOf_grows post : forall st o,
  is_Some (placeOf st !! o) -> is_Some (placeOf (sweepFrom st post) !! o).
Proof.
  induction post as [|x post IH]; intros st o Ho; [done|].
  unfold sweepFrom in *. simpl. apply IH.
  unfold placeEdge. destruct (MultiEventEdge.prev (snd x)).
  - by destruct (placeOf st !! n).
  - simpl. destruct (decide (x.1 = o)) as [->|Hne].
    + rewrite lookup_insert_eq. by eexists.
    + by rewrite lookup_insert_ne.
Qed.

(** Every open edge of the array has a place when the sweep is over. *)
Lemma open_placed edges : forall st x,
  x ∈ edges -> MultiEventEdge.prev x.2 = None ->
  is_Some (placeOf (sweepFrom st edges) !! x.1).
Proof.
  induction edges as [|y edges IH]; intros st x Hin Hopen.
  - by apply elem_of_nil in Hin.
  - apply elem_of_cons in Hin as [->|Hin].
    + unfold sweepFrom. simpl. apply placeOf_grows.
      unfold placeEdge. rewrite Hopen. simpl. rewrite lookup_insert_eq. by eexists.
    + unfold sweepFrom in *. simpl. by apply IH.
Qed.

(** Of the two edges of a segment, the close edge alone gives a bar. *)
Lemma bars_edgesOf arena placed segs : forall k,
  (forall i, (i < length segs)%nat -> is_Some (arena !! (k + 2 * i)%nat)) ->
  length (bars (map (renderMultiEdge arena placed) (edgesOf k segs)))
  = length segs.
Proof.
  induction segs as [|s segs IH]; intros k Hk; [done|].
  cbn [edgesOf map].
  unfold renderMultiEdge at 1 2. cbn [MultiEventEdge.prev].
  destruct (Hk 0%nat) as [o Ho]; [simpl; lia|].
  replace (k + 2 * 0)%nat with k in Ho by lia. rewrite Ho.
  match goal with
  | |- length (bars (HtmlEmpty :: HtmlMulti _ :: ?l)) = _ =>
      change (S (length (bars l)) = S (length segs))
  end.
  f_equal. apply IH. intros i Hi.
  replace (S (S k) + 2 * i)%nat with (k + 2 * S i)%nat by lia.
  apply Hk. simpl. lia.
Qed.

End Layout.

(** X14. When no event has a time on one end only, the fragments that
    [renderVariables] joins are one day cell for each day of the grid
    followed by one fragment for each edge of the decomposer; half of these
    are bars, the others being the empty strings of the open edges, and every
    bar carries a lane: the [place] that line 557 asserts is always set. *)
Theorem renderVariables_layout (H : Host) (this : CalendarRenderer)
    (name : string) (events : list EventData) :
  Forall endsAgree events ->
  exists cells boxes,
    renderVariables this name events = inr (name, map HtmlDay cells ++ boxes)
    /\ length cells = Z.to_nat (calendarDays this)
    /\ length boxes = length (decomposeMultiEdges this (spanning events))
    /\ (2 * length (bars boxes))%nat = length boxes
    /\ Forall (fun m => is_Some (multi_place m)) (bars boxes).
Proof.
  intros Hagree. unfold renderVariables.
  rewrite classify_spec by done. cbn [app].
  unfold renderGrid.
  set (arena := decomposeMultiEdges this (spanning events)).
  set (edges := Array.sort compareRef (withIdentity arena)).
  set (st := placeMultiEdges edges).
  destruct (renderDays_cells this (Z.to_nat (calendarDays this)) 0
              (allocatedSpace st)
              (Array.sort (fun a b => compare b a) (nonSpanning events)) [])
    as (cells & Hcells & Hlen & _).
  change (Z.of_nat 0) with 0 in Hcells.
  change (spaceBefore (allocatedSpace st) 0) with 0%nat in Hcells.
  cbn [app] in Hcells.
  destruct (renderDays this (Z.to_nat (calendarDays this)) 0 (allocatedSpace st)
              0%nat (Array.sort (fun a b => compare b a) (nonSpanning events)) [])
    as [content stack] eqn:Hdays.
  cbn [fst] in Hcells. subst content.
  assert (Hperm : edges ≡ₚ withIdentity arena) by apply sort_perm.
  assert (Harena : arena = edgesOf 0 (flat_map (rowSegments this) (spanning events)))
    by apply decomposeMultiEdges_rows.
  exists cells, (map (fun e => renderMultiEdge arena (placeOf st) e.2) edges).
  split; [reflexivity|]. split; [exact Hlen|]. split; [|split].
  - rewrite length_map, Hperm. unfold withIdentity. by rewrite length_imap.
  - rewrite length_map.
    assert (Hbars : bars (map (fun e => renderMultiEdge arena (placeOf st) e.2) edges)
                    ≡ₚ bars (map (renderMultiEdge arena (placeOf st)) arena)).
    { unfold bars. apply omap_Permutation.
      rewrite <- (withIdentity_snd arena) at 2.
      change (map (renderMultiEdge arena (placeOf st)) (withIdentity arena).*2)
        with ((renderMultiEdge arena (placeOf st)) <$> ((withIdentity arena).*2)).
      rewrite <- list_fmap_compose.
      change (map (fun e => renderMultiEdge arena (placeOf st) e.2) edges)
        with ((fun e : nat * Edge => renderMultiEdge arena (placeOf st) e.2) <$> edges).
      by rewrite Hperm. }
    rewrite Hbars, Hperm. unfold withIdentity. rewrite length_imap.
    rewrite Harena at 2 3. rewrite length_edgesOf.
    rewrite bars_edgesOf; [lia|].
    intros i Hi. apply lookup_lt_is_Some. rewrite Harena, length_edgesOf. lia.
  - apply Forall_forall. intros m Hm. unfold bars in Hm.
    apply list_elem_of_omap in Hm as (h & Hh & Hm).
    destruct h as [|m'|]; try done. injection Hm as ->.
    apply list_elem_of_fmap in Hh as ([j c] & Hbox & Hin). simpl in Hbox.
    assert (Hj : arena !! j = Some c).
    { apply elem_withIdentity. by rewrite <- Hperm. }
    unfold renderMultiEdge in Hbox.
    destruct (MultiEventEdge.prev c) as [p|] eqn:Hp; [|done].
    destruct (arena !! p) as [o|] eqn:Ho; [|done].
    injection Hbox as ->. simpl.
    rewrite Harena in Hj, Ho.
    apply lookup_edgesOf in Hj as (i & s & Hs & [[_ ->]|[_ ->]]); simpl in Hp; [done|].
    injection Hp as <-.
    assert (Hopen : edgesOf 0 (flat_map (rowSegments this) (spanning events))
                      !! (0 + 2 * i)%nat
                    = Some (MultiEventEdge.mk (seg_open s) (seg_event s) None
                              (seg_definiteStart s))).
    { apply lookup_edgesOf. exists i, s. split; [done|]. left. split; [lia|done]. }
    change (i + (i + 0))%nat with (0 + 2 * i)%nat in Ho.
    rewrite Ho in Hopen. injection Hopen as ->.
    rewrite <- Harena in Ho. apply elem_withIdentity in Ho. rewrite <- Hperm in Ho.
    exact (open_placed edges emptySweep _ Ho eq_refl).
Qed.

Lemma renderVariables_layout_witness :
  Forall endsAgree [tenDaysData; morningEvent]
  /\ exists cells boxes,
       renderVariables (H := Iso.host) grid2025 "w" [tenDaysData; morningEvent]
       = inr ("w"%string, map HtmlDay cells ++ boxes)
       /\ length cells = Z.to_nat (calendarDays grid2025)
       /\ length boxes
          = length (decomposeMultiEdges (H := Iso.host) grid2025
                      (spanning (H := Iso.host) [tenDaysData; morningEvent]))
       /\ (2 * length (bars boxes))%nat = length boxes
       /\ Forall (fun m => is_Some (multi_place m)) (bars boxes).
Proof.
  assert (Hagree : Forall endsAgree [tenDaysData; morningEvent]).
  { repeat constructor. }
  split; [exact Hagree|].
  exact (renderVariables_layout Iso.host grid2025 "w"
           [tenDaysData; morningEvent] Hagree).
Defined.

(** ** The order of the sorted edges *)



Section Bars.
Context {H : Host}.

Lemma bars_of_segments arena placed segs : forall k,
  (forall i s, segs !! i = Some s ->
     arena !! (k + 2 * i)%nat
     = Some (MultiEventEdge.mk (seg_open s) (seg_event s) None (seg_definiteStart s))) ->
  bars (map (renderMultiEdge arena placed) (edgesOf k segs))
  = imap (fun i s => barOf placed (k + 2 * i) s) segs.
Proof.
  induction segs as [|s segs IH]; intros k Hk; [done|].
  cbn [edgesOf map].
  unfold renderMultiEdge at 1 2. cbn [MultiEventEdge.prev].
  pose proof (Hk 0%nat s eq_refl) as Ho.
  replace (k + 2 * 0)%nat with k in Ho by lia. rewrite Ho.
  match goal with
  | |- bars (HtmlEmpty :: HtmlMulti ?m :: ?l) = _ =>
      change (m :: bars l = imap (fun i s => barOf placed (k + 2 * i) s) (s :: segs))
  end.
  rewrite imap_cons. f_equal.
  - unfold barOf. replace (k + 2 * 0)%nat with k by lia. reflexivity.
  - rewrite IH.
    + apply imap_ext. intros i s' _. simpl. f_equal. lia.
    + intros i s' Hs. replace (S (S k) + 2 * i)%nat with (k + 2 * S i)%nat by lia.
      by apply Hk.
Qed.

End Bars.

(** X16. When no event has a time on one end only, the bars in the output of
    [renderVariables] are, up to their order, one bar for each row segment of
    the events collected in [multi]: in the grid row and from the column of
    the day on which the segment opens, up to the column after that of its
    last day, marked with [indefinite-start] or [indefinite-end] where the
    segment is cut at a week boundary, and with the lane given to the open
    edge of the segment. *)
Theorem renderVariables_bars (H : Host) (this : CalendarRenderer)
    (name : string) (events : list EventData) :
  Forall endsAgree events ->
  exists content,
    renderVariables this name events = inr (name, content)
    /\ bars content
       ≡ₚ imap (fun i s =>
                  barOf (placeOf (renderGrid this (nonSpanning events)
                                    (spanning events)).1.2)
                    (2 * i) s)
            (flat_map (rowSegments this) (spanning events)).
Proof.
  intros Hagree. unfold renderVariables.
  rewrite classify_spec by done. cbn [app].
  unfold renderGrid. cbn [fst snd].
  set (arena := decomposeMultiEdges this (spanning events)).
  set (edges := Array.sort compareRef (withIdentity arena)).
  set (st := placeMultiEdges edges).
  destruct (renderDays_cells this (Z.to_nat (calendarDays this)) 0
              (allocatedSpace st)
              (Array.sort (fun a b => compare b a) (nonSpanning events)) [])
    as (cells & Hcells & Hlen & _).
  change (Z.of_nat 0) with 0 in Hcells.
  change (spaceBefore (allocatedSpace st) 0) with 0%nat in Hcells.
  cbn [app] in Hcells.
  destruct (renderDays this (Z.to_nat (calendarDays this)) 0 (allocatedSpace st)
              0%nat (Array.sort (fun a b => compare b a) (nonSpanning events)) [])
    as [content stack] eqn:Hdays.
  cbn [fst] in Hcells. subst content.
  assert (Hperm : edges ≡ₚ withIdentity arena) by apply sort_perm.
  assert (Harena : arena = edgesOf 0 (flat_map (rowSegments this) (spanning events)))
    by apply decomposeMultiEdges_rows.
  eexists. split; [reflexivity|].
  assert (Hcellbars : bars (map HtmlDay cells) = []).
  { clear. induction cells as [|c cells IH]; [done|exact IH]. }
  unfold bars in *. rewrite omap_app, Hcellbars. cbn [app].
  assert (Hbars : omap (fun h => match h with HtmlMulti m => Some m | _ => None end)
                    (map (fun e => renderMultiEdge arena (placeOf st) e.2) edges)
                  ≡ₚ bars (map (renderMultiEdge arena (placeOf st)) arena)).
  { unfold bars. apply omap_Permutation.
    rewrite <- (withIdentity_snd arena) at 2.
    change (map (renderMultiEdge arena (placeOf st)) (withIdentity arena).*2)
      with ((renderMultiEdge arena (placeOf st)) <$> ((withIdentity arena).*2)).
    rewrite <- list_fmap_compose.
    change (map (fun e => renderMultiEdge arena (placeOf st) e.2) edges)
      with ((fun e : nat * Edge => renderMultiEdge arena (placeOf st) e.2) <$> edges).
    by rewrite Hperm. }
  rewrite Hbars. rewrite Harena at 2.
  rewrite (bars_of_segments arena (placeOf st)).
  - reflexivity.
  - intros i s Hs. rewrite Harena. apply lookup_edgesOf.
    exists i, s. split; [done|]. left. split; [lia|done].
Qed.

Lemma renderVariables_bars_witness :
  Forall endsAgree [tenDaysData; morningEvent]
  /\ exists content,
       renderVariables (H := Iso.host) grid2025 "w" [tenDaysData; morningEvent]
       = inr ("w"%string, content)
       /\ bars content
          ≡ₚ imap (fun i s =>
                     barOf (placeOf (renderGrid (H := Iso.host) grid2025
                                       (nonSpanning (H := Iso.host)
                                          [tenDaysData; morningEvent])
                                       (spanning (H := Iso.host)
                                          [tenDaysData; morningEvent])).1.2)
                       (2 * i) s)
               (flat_map (rowSegments (H := Iso.host) grid2025)
                  (spanning (H := Iso.host) [tenDaysData; morningEvent])).
Proof.
  assert (Hagree : Forall endsAgree [tenDaysData; morningEvent]).
  { repeat constructor. }
  split; [exact Hagree|].
  exact (renderVariables_bars Iso.host grid2025 "w"
           [tenDaysData; morningEvent] Hagree).
Defined.

Example tenDays_bars :
  exists content,
    renderVariables (H := Iso.host) grid2025 "w" [tenDaysData; morningEvent]
    = inr ("w"%string, content)
    /\ map (fun m => (multi_classes m, multi_row m, multi_left m, multi_right m,
                      multi_place m)) (bars content)
       = [(["event"; "multi"; "indefinite-end"], 11, 7, 8, Some 0%nat);
          (["event"; "multi"; "indefinite-start"; "indefinite-end"], 12, 1, 8,
           Some 0%nat);
          (["event"; "multi"; "indefinite-start"], 13, 1, 3, Some 0%nat)].
Proof. eexists. split; vm_compute; reflexivity. Qed.

(** ** Escaping, character by character *)

Section EscapingMore.

Lemma append_assoc (a b c : string) : a +:+ (b +:+ c) = (a +:+ b) +:+ c.
Proof.
  induction a as [|x a IH]; [done|].
  change (String x (a +:+ (b +:+ c)) = String x ((a +:+ b) +:+ c)).
  by rewrite IH.
Qed.

Lemma replaceAll_append pat rep a b :
  Str.replaceAll pat rep (a +:+ b)
  = Str.replaceAll pat rep a +:+ Str.replaceAll pat rep b.
Proof.
  induction a as [|x a IH]; [done|].
  change (String x a +:+ b) with (String x (a +:+ b)).
  cbn [Str.replaceAll]. destruct (Ascii.eqb x pat); rewrite IH.
  - apply append_assoc.
  - reflexivity.
Qed.

Lemma escapeHtml_append a b : escapeHtml (a +:+ b) = escapeHtml a +:+ escapeHtml b.
Proof. unfold escapeHtml. by rewrite !replaceAll_append. Qed.

Lemma escapeHtml_cons x s :
  escapeHtml (String x s) = escapeHtml (String x "") +:+ escapeHtml s.
Proof. by rewrite <- escapeHtml_append. Qed.

Lemma escapeHtml_plain x :
  x <> Str.amp -> x <> Str.lt -> x <> Str.gt -> x <> Str.dquote -> x <> Str.squote ->
  escapeHtml (String x "") = String x "".
Proof.
  intros H1 H2 H3 H4 H5. unfold escapeHtml. simpl.
  apply Ascii.eqb_neq in H1, H2, H3, H4, H5.
  rewrite H1. simpl. rewrite H2. simpl. rewrite H3. simpl. rewrite H4. simpl.
  by rewrite H5.
Qed.

(** The five characters and the others, told apart. *)
Lemma special_cases (x : ascii) :
  x = Str.amp \/ x = Str.lt \/ x = Str.gt \/ x = Str.dquote \/ x = Str.squote
  \/ (x <> Str.amp /\ x <> Str.lt /\ x <> Str.gt /\ x <> Str.dquote
      /\ x <> Str.squote).
Proof.
  destruct (Ascii.eqb_spec x Str.amp); [tauto|].
  destruct (Ascii.eqb_spec x Str.lt); [tauto|].
  destruct (Ascii.eqb_spec x Str.gt); [tauto|].
  destruct (Ascii.eqb_spec x Str.dquote); [tauto|].
  destruct (Ascii.eqb_spec x Str.squote); tauto.
Qed.

End EscapingMore.

(** X17. [escapeHtml] works character by character: the escape of a text is
    the escapes of its characters one after the other, a character other than
    the five special ones is kept as it is, and each of the five becomes its
    entity.  The ampersands of the entities themselves are not escaped again,
    the ampersand being replaced first. *)
Theorem escapeHtml_per_character :
  (forall a b : string, escapeHtml (a +:+ b) = escapeHtml a +:+ escapeHtml b)
  /\ (forall (x : ascii) (s : string),
        x <> Str.amp -> x <> Str.lt -> x <> Str.gt -> x <> Str.dquote ->
        x <> Str.squote ->
        escapeHtml (String x s) = String x (escapeHtml s))
  /\ (forall s : string,
        escapeHtml (String Str.amp s) = "&amp;" +:+ escapeHtml s
        /\ escapeHtml (String Str.lt s) = "&lt;" +:+ escapeHtml s
        /\ escapeHtml (String Str.gt s) = "&gt;" +:+ escapeHtml s
        /\ escapeHtml (String Str.dquote s) = "&quot;" +:+ escapeHtml s
        /\ escapeHtml (String Str.squote s) = "&apos;" +:+ escapeHtml s).
Proof.
  split; [exact escapeHtml_append|]. split.
  - intros x s H1 H2 H3 H4 H5.
    rewrite escapeHtml_cons, escapeHtml_plain by done. reflexivity.
  - intros s. repeat split; by rewrite escapeHtml_cons.
Qed.

(** X18. [escapeHtml] loses nothing: two texts with the same escape are the
    same text. *)
Theorem escapeHtml_injective (a b : string) :
  escapeHtml a = escapeHtml b -> a = b.
Proof.
  revert b. induction a as [|x a IH]; intros [|y b] Heq.
  - reflexivity.
  - exfalso. rewrite (escapeHtml_cons y b) in Heq.
    destruct (special_cases y) as [->|[->|[->|[->|[->|(?&?&?&?&?)]]]]];
      [| | | | |rewrite escapeHtml_plain in Heq by done];
      cbv beta iota fix delta [String.append] in Heq; discriminate Heq.
  - exfalso. rewrite (escapeHtml_cons x a) in Heq.
    destruct (special_cases x) as [->|[->|[->|[->|[->|(?&?&?&?&?)]]]]];
      [| | | | |rewrite escapeHtml_plain in Heq by done];
      cbv beta iota fix delta [String.append] in Heq; discriminate Heq.
  - rewrite (escapeHtml_cons x a), (escapeHtml_cons y b) in Heq.
    assert (Hgoal : x = y /\ escapeHtml a = escapeHtml b).
    { destruct (special_cases x) as [->|[->|[->|[->|[->|(?&?&?&?&?)]]]]];
        [| | | | |rewrite (escapeHtml_plain x) in Heq by done];
        (destruct (special_cases y) as [->|[->|[->|[->|[->|(?&?&?&?&?)]]]]];
         [| | | | |rewrite (escapeHtml_plain y) in Heq by done]);
        cbv beta iota fix delta [String.append] in Heq;
        first
          [ discriminate Heq
          | exfalso; injection Heq as Hc _; subst;
            match goal with Hne : _ <> _ |- _ => apply Hne; reflexivity end
          | injection Heq as Hc Htl; split; [exact Hc|exact Htl]
          | injection Heq as Htl; split; [reflexivity|exact Htl] ]. }
    destruct Hgoal as [-> Htl]. f_equal. by apply IH.
Qed.

Lemma escapeHtml_injective_witness : ("Q&A <1>" : string) = "Q&A <1>".
Proof. apply (escapeHtml_injective "Q&A <1>" "Q&A <1>"). reflexivity. Defined.

(** ** The earlier renderers *)

Ltac split_rows :=
  repeat match goal with
         | |- context [?a =? ?b] =>
             lazymatch a with
             | context [if _ then _ else _] => fail
             | _ => destruct (Z.eqb_spec a b)
             end
         end;
  Z.div_mod_to_equations; lia.

Section EarlierGrids.

Lemma next_jan1 (y : Z) :
  Temporal.PlainDate (y + 1) 1 1 = Temporal.PlainDate y 12 31 + 1.
Proof.
  unfold Temporal.PlainDate. simpl.
  replace (y + 1 - 1) with y by lia.
  Z.div_mod_to_equations. lia.
Qed.

Lemma weeks_spec fuel : forall week limit,
  (Z.to_nat (limit - week) <= fuel)%nat ->
  ByWeeks.weeks fuel week limit
  = map (fun k => week + 7 * Z.of_nat k)
      (seq 0 (Z.to_nat ((limit - week + 6) / 7))).
Proof.
  induction fuel as [|fuel IH]; intros week limit Hfuel; simpl.
  - replace (Z.to_nat ((limit - week + 6) / 7)) with 0%nat; [done|].
    Z.div_mod_to_equations. lia.
  - destruct (Z.ltb_spec week limit).
    + rewrite IH by lia.
      replace (Z.to_nat ((limit - week + 6) / 7))
        with (S (Z.to_nat ((limit - (week + 7) + 6) / 7)))
        by (Z.div_mod_to_equations; lia).
      cbn [seq map]. f_equal; [lia|].
      rewrite <- seq_shift, map_map. apply map_ext. intros k. lia.
    + replace (Z.to_nat ((limit - week + 6) / 7)) with 0%nat; [done|].
      Z.div_mod_to_equations. lia.
Qed.

Lemma totalDays_app a b :
  ByRows.totalDays (a ++ b) = ByRows.totalDays a + ByRows.totalDays b.
Proof.
  unfold ByRows.totalDays. induction a as [|x a IH]; simpl; [done|].
  rewrite IH. lia.
Qed.

Lemma totalDays_whole_rows (f : nat -> ByRows.Bar) (l : list nat) :
  Forall (fun k => ByRows.barDays (f k) = 7) l ->
  ByRows.totalDays (map f l) = 7 * Z.of_nat (length l).
Proof.
  unfold ByRows.totalDays. induction 1 as [|k l Hk _ IH]; simpl; [done|].
  rewrite IH, Hk. lia.
Qed.

End EarlierGrids.

(** X19. The constructor of the renderer that draws one bar for each row
    does not count the last day: for every year its grid starts on a Sunday
    and ends on a Friday, with 370 or 377 cells, one short of whole weeks;
    31 December has a cell exactly when it is not a Saturday or a Sunday. *)
Theorem ByRows_grid_one_short (year : Z) :
  Temporal.dayOfWeek (calendarStart (ByRows.new_CalendarRenderer year)) = 7
  /\ Temporal.dayOfWeek (lastGridDay (ByRows.new_CalendarRenderer year)) = 5
  /\ (calendarDays (ByRows.new_CalendarRenderer year) = 370
      \/ calendarDays (ByRows.new_CalendarRenderer year) = 377)
  /\ (Temporal.PlainDate year 12 31 - calendarStart (ByRows.new_CalendarRenderer year)
        < calendarDays (ByRows.new_CalendarRenderer year)
      <-> Temporal.dayOfWeek (Temporal.PlainDate year 12 31) <= 5).
Proof.
  pose proof (year_length_bounds year) as Hlen.
  pose proof (dayOfWeek_range (Temporal.PlainDate year 1 1)) as Hj.
  pose proof (dayOfWeek_range (Temporal.PlainDate year 12 31)) as Hd.
  revert Hlen Hj Hd.
  unfold lastGridDay, ByRows.new_CalendarRenderer, Temporal.dayOfWeek. simpl.
  generalize (Temporal.PlainDate year 1 1), (Temporal.PlainDate year 12 31).
  intros a b Hlen Hj Hd.
  repeat split; try (Z.div_mod_to_equations; lia).
Qed.

(** X20. In the renderer that draws one bar for each row, the bars of an
    event whose first day has a cell and whose last day is not before the
    first tile its days: there is one bar for each grid row from that of the
    first day to that of the last, each bar lies within the seven columns
    and covers at least one day, and together they cover as many days as
    lie from the first day to the last, both included. *)
Theorem ByRows_bars_tile (this : CalendarRenderer) (gridStart gridEnd : Z) :
  0 <= gridStart - calendarStart this ->
  gridStart <= gridEnd ->
  let bars := ByRows.renderMultiDayEvent this gridStart gridEnd in
  Z.of_nat (length bars)
  = fst (ByRows.gridCoords this gridEnd) - fst (ByRows.gridCoords this gridStart) + 1
  /\ Forall (fun b => 1 <= ByRows.bar_left b
                      /\ 1 <= ByRows.barDays b
                      /\ ByRows.bar_left b + ByRows.barDays b <= 8) bars
  /\ ByRows.totalDays bars = gridEnd - gridStart + 1.
Proof.
  intros Hs Hle bars. subst bars. unfold ByRows.renderMultiDayEvent.
  unfold ByRows.gridCoords. cbn [fst snd].
  set (s := gridStart - calendarStart this) in *.
  set (e := gridEnd - calendarStart this).
  assert (Hse : s <= e) by (subst s e; lia).
  rewrite !Z.rem_mod_nonneg by lia.
  assert (Hrows : s / 7 <= e / 7) by (Z.div_mod_to_equations; lia).
  assert (Hdays : gridEnd - gridStart = e - s) by (subst s e; lia).
  rewrite Hdays. clearbody s e. clear Hdays Hle.
  split; [|split].
  - rewrite length_map, length_seq. lia.
  - apply Forall_forall. intros b Hb.
    apply list_elem_of_fmap in Hb as (k & -> & Hk).
    apply elem_of_seq in Hk. unfold ByRows.barDays.
    cbn [ByRows.bar_left ByRows.bar_right]. split_rows.
  - destruct (Z.to_nat (e / 7 + 1 - (s / 7 + 1) + 1)) as [|[|m]] eqn:Hn; [lia| |].
    + assert (Hrow : e / 7 = s / 7) by lia.
      unfold ByRows.totalDays, ByRows.barDays.
      cbn [seq map foldr ByRows.bar_left ByRows.bar_right]. split_rows.
    + assert (Hrow : e / 7 = s / 7 + 1 + Z.of_nat m) by lia.
      replace (seq 0 (S (S m))) with ([0%nat] ++ seq 1 m ++ [S m])
        by (rewrite <- seq_S; reflexivity).
      rewrite !map_app, !totalDays_app.
      rewrite (totalDays_whole_rows _ (seq 1 m)).
      * rewrite length_seq. unfold ByRows.totalDays, ByRows.barDays.
        cbn [seq map foldr ByRows.bar_left ByRows.bar_right]. split_rows.
      * apply Forall_forall. intros k Hk. apply elem_of_seq in Hk.
        unfold ByRows.barDays. cbn [ByRows.bar_left ByRows.bar_right].
        split_rows.
Qed.

Lemma ByRows_bars_tile_witness :
  0 <= Temporal.PlainDate 2025 3 8 - calendarStart (ByRows.new_CalendarRenderer 2025)
  /\ ByRows.totalDays
       (ByRows.renderMultiDayEvent (ByRows.new_CalendarRenderer 2025)
          (Temporal.PlainDate 2025 3 8) (Temporal.PlainDate 2025 3 17))
     = Temporal.PlainDate 2025 3 17 - Temporal.PlainDate 2025 3 8 + 1.
Proof.
  assert (Hs : 0 <= Temporal.PlainDate 2025 3 8
                    - calendarStart (ByRows.new_CalendarRenderer 2025)).
  { vm_compute. discriminate. }
  assert (Hle : Temporal.PlainDate 2025 3 8 <= Temporal.PlainDate 2025 3 17).
  { vm_compute. discriminate. }
  split; [exact Hs|].
  apply (ByRows_bars_tile (ByRows.new_CalendarRenderer 2025)
           (Temporal.PlainDate 2025 3 8) (Temporal.PlainDate 2025 3 17) Hs Hle).
Defined.

Example ByRows_ten_days :
  ByRows.renderMultiDayEvent (ByRows.new_CalendarRenderer 2025)
    (Temporal.PlainDate 2025 3 8) (Temporal.PlainDate 2025 3 17)
  = [ {| ByRows.bar_row := 10; ByRows.bar_left := 7; ByRows.bar_right := -1 |};
      {| ByRows.bar_row := 11; ByRows.bar_left := 1; ByRows.bar_right := -1 |};
      {| ByRows.bar_row := 12; ByRows.bar_left := 1; ByRows.bar_right := 3 |} ].
Proof. vm_compute. reflexivity. Qed.

(** X21. The renderer that walks the weeks renders, for every year, 53 or
    54 weeks that follow one another, each from a Sunday; every date from
    1 January to 31 December lies in one of them, and the first of them
    starts one to seven days before 1 January: when 1 January is a Sunday
    the week before it is rendered as well. *)
Theorem ByWeeks_cover_year (year : Z) :
  (length (ByWeeks.renderedWeeks year) = 53%nat
   \/ length (ByWeeks.renderedWeeks year) = 54%nat)
  /\ (forall i w, ByWeeks.renderedWeeks year !! i = Some w ->
        Temporal.dayOfWeek w = 7
        /\ w = Temporal.PlainDate year 1 1
               - Temporal.dayOfWeek (Temporal.PlainDate year 1 1)
               + 7 * Z.of_nat i)
  /\ (forall d, Temporal.PlainDate year 1 1 <= d <= Temporal.PlainDate year 12 31 ->
        exists i w, ByWeeks.renderedWeeks year !! i = Some w /\ w <= d < w + 7)
  /\ 1 <= Temporal.PlainDate year 1 1
          - default 0 (head (ByWeeks.renderedWeeks year)) <= 7.
Proof.
  unfold ByWeeks.renderedWeeks. cbv zeta.
  rewrite weeks_spec by lia. rewrite next_jan1.
  pose proof (year_length_bounds year) as Hlen.
  pose proof (dayOfWeek_range (Temporal.PlainDate year 1 1)) as Hj.
  assert (Hsun : Temporal.dayOfWeek
                   (Temporal.PlainDate year 1 1
                    - Temporal.dayOfWeek (Temporal.PlainDate year 1 1)) = 7).
  { unfold Temporal.dayOfWeek. Z.div_mod_to_equations. lia. }
  revert Hlen Hj Hsun.
  generalize (Temporal.PlainDate year 1 1), (Temporal.PlainDate year 12 31).
  intros a b Hlen Hj Hsun.
  set (w0 := a - Temporal.dayOfWeek a) in *.
  set (n := Z.to_nat ((b + 1 - w0 + 6) / 7)).
  assert (Hn : 7 * Z.of_nat n < b + 1 - w0 + 7 /\ b + 1 - w0 <= 7 * Z.of_nat n).
  { subst n. rewrite Z2Nat.id by (Z.div_mod_to_equations; lia).
    Z.div_mod_to_equations. lia. }
  split; [|split; [|split]].
  - rewrite length_map, length_seq. lia.
  - intros i w Hi. rewrite list_lookup_fmap in Hi.
    destruct (seq 0 n !! i) as [k|] eqn:Hk; [|done].
    apply lookup_seq in Hk as [-> _]. injection Hi as <-. simpl.
    split; [|reflexivity].
    revert Hsun. unfold Temporal.dayOfWeek. generalize w0. intros v Hv.
    Z.div_mod_to_equations. lia.
  - intros d Hd.
    exists (Z.to_nat ((d - w0) / 7)), (w0 + 7 * ((d - w0) / 7)).
    split.
    + rewrite list_lookup_fmap.
      rewrite (proj2 (lookup_seq 0 n (Z.to_nat ((d - w0) / 7))
                        (0 + Z.to_nat ((d - w0) / 7))%nat)).
      * simpl. rewrite Z2Nat.id by (Z.div_mod_to_equations; lia). reflexivity.
      * split; [reflexivity|]. Z.div_mod_to_equations. lia.
    + Z.div_mod_to_equations. lia.
  - destruct n as [|n']; [lia|]. simpl. lia.
Qed.
